(** * A disk-backed object cache (mrr::Cache, cache.hxx)

    The development embeds [mrr::Cache<Key, Value, LoggingPolicy,
    SerializationPolicy, ConcurrencyPolicy>] of cache.hxx together with
    the part of the environment its member functions act on: the
    directory tree reached through [boost::filesystem] and the file
    streams of [<fstream>].

    - The in-memory table [m_cache] is a [std::map<Key,
      std::shared_ptr<Value>>]: a finite map whose entries are either a
      loaded value or [nullptr].  It is a [gmap Key (option Value)];
      iteration (in [save]) follows the key order of [std::map].
    - Member functions read and write the table and the disk, and the
      throwing overloads of [boost::filesystem] may raise
      [filesystem_error]: they are computations in a state-and-exception
      monad over [World].
    - A [std::shared_ptr<Value>] is rendered by the value it points to,
      [None] for [nullptr].  Every pointer in the table comes from its own
      [std::make_shared], so no two entries share a value, and an
      in-place change made through the pointer that [operator[]] returned
      is a change of the entry.
    - Paths are sequences of components, read from the directory the
      program runs in, as in ["data/1/value.txt"].
    - The concurrency policy is the default [NoConcurrencyControl], whose
      [LockEntry]/[LockAll] hand out a [NoOpMutex]; the logging policy
      only writes to its own stream.  Neither touches the table or the
      disk, and both are no-ops here.
    - A member function whose body calls a name that lookup does not
      find cannot be instantiated: it is an [option], and [None]. *)

From Stdlib Require Import Ascii String.
From stdpp Require Import gmap strings list sorting pretty.

Set Default Proof Using "Type*".

(** * The directory tree: namespace fs = boost::filesystem *)

Module fs.

(** A path is its sequence of components, read from a fixed starting
    directory; [[]] is the empty path. *)
Abbreviation path := (list string).

Inductive node :=
  | File (content : string)
  | Directory.

#[global] Instance node_eq_dec : EqDecision node.
Proof. solve_decision. Defined.

(** The disk maps every path that exists to what is there. *)
Abbreviation filesystem := (gmap (list string) node).

Inductive errc :=
  | invalid_argument
  | no_such_file_or_directory
  | file_exists
  | not_a_directory
  | is_a_directory
  | directory_not_empty.

(** [fs::path::parent_path()] *)
Definition parent_path (p : path) : path := removelast p.

(** [fs::exists(p)]; the empty path names nothing. *)
Definition exists_ (d : filesystem) (p : path) : bool :=
  match p with
  | [] => false
  | _ => bool_decide (is_Some (d !! p))
  end.

(** The directory in which the last component of a path is resolved is
    there: either the starting directory itself or a directory of the
    tree. *)
Definition is_directory_or_start (d : filesystem) (p : path) : bool :=
  match p with
  | [] => true
  | _ => bool_decide (d !! p = Some Directory)
  end.

(** [fs::create_directories(p)]: creates every missing element of [p],
    outermost first; [true] exactly when a new directory was created.
    An element that is there and is not a directory is an error: the
    directory cannot be made where a file is, nor below a file. *)
Fixpoint create_directories_from (base rest : path) (d : filesystem)
  : errc + bool * filesystem :=
  match rest with
  | [] => inr (false, d)
  | c :: rest' =>
      let q := base ++ [c] in
      match d !! q with
      | Some (File _) =>
          inl (match rest' with [] => file_exists | _ => not_a_directory end)
      | Some Directory => create_directories_from q rest' d
      | None =>
          match create_directories_from q rest' (<[q := Directory]> d) with
          | inl e => inl e
          | inr (_, d') => inr (true, d')
          end
      end
  end.

Definition create_directories (d : filesystem) (p : path)
  : errc + bool * filesystem :=
  match p with
  | [] => inl invalid_argument
  | _ => create_directories_from [] p d
  end.

(** [strip_prefix pre p] is [Some rest] when [p = pre ++ rest]. *)
Fixpoint strip_prefix (pre p : path) : option path :=
  match pre, p with
  | [], _ => Some p
  | a :: pre', b :: p' => if decide (a = b) then strip_prefix pre' p' else None
  | _ :: _, [] => None
  end.

Definition relocate (old new p : path) : path :=
  match strip_prefix old p with
  | Some rest => new ++ rest
  | None => p
  end.

(** Everything at or below [old] is found at or below [new] instead, in
    the place of what was at [new]. *)
Definition move (d : filesystem) (old new : path) : filesystem :=
  map_fold (λ p n acc, <[relocate old new p := n]> acc) ∅
           (filter (λ e, ¬ new `prefix_of` e.1) d).

Definition has_entries_below (d : filesystem) (p : path) : bool :=
  bool_decide (map_Exists (λ q _, p `prefix_of` q ∧ q ≠ p) d).

(** [fs::rename(old, new)], with the outcomes of POSIX rename(2). *)
Definition rename (d : filesystem) (old new : path) : errc + filesystem :=
  match d !! old with
  | None => inl no_such_file_or_directory
  | Some n =>
      if decide (old = new) then inr d
      else if negb (is_directory_or_start d (parent_path new)) then
        inl (match d !! parent_path new with
             | Some (File _) => not_a_directory
             | _ => no_such_file_or_directory
             end)
      else if bool_decide (old `prefix_of` new) then inl invalid_argument
      else
        match n, d !! new with
        | _, None => inr (move d old new)
        | File _, Some (File _) => inr (move d old new)
        | File _, Some Directory => inl is_a_directory
        | Directory, Some (File _) => inl not_a_directory
        | Directory, Some Directory =>
            if has_entries_below d new then inl directory_not_empty
            else inr (move d old new)
        end
  end.

(** [std::ofstream file(p)] can open [p] when the directory holding it is
    there and [p] itself is not a directory. *)
Definition can_open_for_writing (d : filesystem) (p : path) : bool :=
  match p with
  | [] => false
  | _ => is_directory_or_start d (parent_path p)
         && bool_decide (d !! p ≠ Some Directory)
  end.

(** What [std::ifstream file(p)] delivers: the characters of a regular
    file, nothing otherwise. *)
Definition file_content (d : filesystem) (p : path) : string :=
  match d !! p with
  | Some (File s) => s
  | _ => ""
  end.

(** Two trees with the same directories. *)
Definition same_directories (d d' : filesystem) : Prop :=
  ∀ q, d' !! q = Some Directory ↔ d !! q = Some Directory.

(** Every entry of a directory tree sits in a directory: the one it is
    resolved in is the starting directory or a directory of the tree. *)
Definition well_formed (d : filesystem) : Prop :=
  map_Forall (λ p _, p ≠ [] ∧ is_directory_or_start d (parent_path p) = true) d.

#[global] Instance well_formed_dec d : Decision (well_formed d).
Proof. unfold well_formed. apply _. Defined.

End fs.

(** * Exceptions, outcomes and the computation monad *)

Inductive exception :=
  | filesystem_error (e : fs.errc)
  | bad_function_call.

Inductive outcome (S A : Type) :=
  | Returns (a : A) (s : S)
  | Throws (e : exception).
Arguments Returns {S A} a s.
Arguments Throws {S A} e.

Definition M (S A : Type) : Type := S → outcome S A.

#[global] Instance M_ret {S} : MRet (M S) := λ A a s, Returns a s.
#[global] Instance M_bind {S} : MBind (M S) := λ A B k c s,
  match c s with
  | Returns a s' => k a s'
  | Throws e => Throws e
  end.

(** A range-based [for] over a container. *)
Fixpoint for_each {S A} (l : list A) (body : A → M S unit) : M S unit :=
  match l with
  | [] => mret tt
  | x :: l' => body x ;; for_each l' body
  end.

(** * Policies *)

(** serialization_policies.hxx: a policy puts the characters of a value
    on an output stream and reads a value back, into [v], from the
    characters of an input stream; both receive the format tag. *)
Class SerializationPolicy (T : Type) := {
  Serialize : T → string → string;
  Deserialize : string → T → string → T;
}.

(** [std::less<Key>], the order of [std::map<Key, _>]. *)
Class Less (K : Type) := {
  less : K → K → Prop;
  less_dec :: RelDecision less;
}.

(** A [std::ofstream] collects what is put on it in its buffer and hands
    the characters to the file as the buffer fills up, and all of them
    when the stream is closed.  [written_through s] is what has reached
    the file once [s] has been put on a stream that is still open. *)
Class Filebuf := written_through : string → string.

Record ofstream := {
  os_path : fs.path;
  os_is_open : bool;
}.

(** * mrr::Cache *)

Section Cache.
Context {Key : Type} `{Countable Key} `{!Less Key}.
Context {Value : Type} `{!Inhabited Value} `{!SerializationPolicy Value}.
Context {filebuf : Filebuf}.

Record Cache := {
  m_cache : gmap Key (option Value);
  m_filename_func : option (Key → fs.path);
}.

(** What a member function acts on: the cache object and the disk. *)
Record World := {
  this : Cache;
  disk : fs.filesystem;
}.

Definition with_m_cache (f : gmap Key (option Value) → gmap Key (option Value))
    (w : World) : World :=
  {| this := {| m_cache := f (m_cache (this w));
                m_filename_func := m_filename_func (this w) |};
     disk := disk w |}.

Definition with_disk (d : fs.filesystem) (w : World) : World :=
  {| this := this w; disk := d |}.

(** ** Primitive steps *)

Definition m_cache_find (k : Key) : M World (option (option Value)) :=
  λ w, Returns (m_cache (this w) !! k) w.

Definition m_cache_assign (k : Key) (p : option Value) : M World unit :=
  λ w, Returns tt (with_m_cache (insert k p) w).

Definition m_cache_erase (k : Key) : M World unit :=
  λ w, Returns tt (with_m_cache (delete k) w).

Definition m_cache_clear : M World unit :=
  λ w, Returns tt (with_m_cache (λ _, ∅) w).

(** [std::map::value_compare]: entries are ordered by their keys. *)
Definition value_comp : relation (Key * option Value) := λ p q, less p.1 q.1.

#[global] Instance value_comp_dec : RelDecision value_comp :=
  λ p q, decide (less p.1 q.1).

(** The table in iteration order. *)
Definition m_cache_entries : M World (list (Key * option Value)) :=
  λ w, Returns (merge_sort value_comp (map_to_list (m_cache (this w)))) w.

(** Calling an empty [std::function] throws. *)
Definition call_m_filename_func (k : Key) : M World fs.path :=
  λ w, match m_filename_func (this w) with
       | Some f => Returns (f k) w
       | None => Throws bad_function_call
       end.

Definition fs_exists (p : fs.path) : M World bool :=
  λ w, Returns (fs.exists_ (disk w) p) w.

Definition fs_create_directories (p : fs.path) : M World bool :=
  λ w, match fs.create_directories (disk w) p with
       | inr (created, d) => Returns created (with_disk d w)
       | inl e => Throws (filesystem_error e)
       end.

Definition fs_rename (old new : fs.path) : M World unit :=
  λ w, match fs.rename (disk w) old new with
       | inr d => Returns tt (with_disk d w)
       | inl e => Throws (filesystem_error e)
       end.

(** [std::ofstream file_handle(filename)]: opening truncates. *)
Definition ofstream_open (p : fs.path) : M World ofstream :=
  λ w, if fs.can_open_for_writing (disk w) p
       then Returns {| os_path := p; os_is_open := true |}
                    (with_disk (<[p := fs.File ""]> (disk w)) w)
       else Returns {| os_path := p; os_is_open := false |} w.

(** The characters [s] are put on a stream just opened. *)
Definition ofstream_put (os : ofstream) (s : string) : M World unit :=
  λ w, if os_is_open os
       then Returns tt (with_disk (<[os_path os := fs.File (written_through s)]> (disk w)) w)
       else Returns tt w.

(** The destructor of a stream on which [s] was put. *)
Definition ofstream_close (os : ofstream) (s : string) : M World unit :=
  λ w, if os_is_open os
       then Returns tt (with_disk (<[os_path os := fs.File s]> (disk w)) w)
       else Returns tt w.

(** [std::ifstream file_handle(filename)] and all it holds. *)
Definition ifstream_read (p : fs.path) : M World string :=
  λ w, Returns (fs.file_content (disk w) p) w.

(** ** Member functions *)

(** [Cache() = default]: an empty table and an empty [std::function]. *)
Definition Cache_default : Cache :=
  {| m_cache := ∅; m_filename_func := None |}.

Definition setFilenameFunction (fn_func : Key → fs.path) : M World unit :=
  λ w, Returns tt {| this := {| m_cache := m_cache (this w);
                                m_filename_func := Some fn_func |};
                     disk := disk w |}.

Definition loadFromDisk (k : Key) : M World (option Value) :=
  filename ← call_m_filename_func k;
  found ← fs_exists filename;
  if found : bool then
    file_handle ← ifstream_read filename;
    let v := inhabitant in
    mret (Some (Deserialize file_handle v "xml"))
  else
    mret None.

Definition writeToDisk (k : Key) (v : Value) : M World unit :=
  filename ← call_m_filename_func k;
  file_handle ← ofstream_open filename;
  ofstream_put file_handle (Serialize v "xml");;
  ofstream_close file_handle (Serialize v "xml").

Definition operator_index (k : Key) : M World (option Value) :=
  iter ← m_cache_find k;
  match iter with
  | Some second => mret second
  | None =>
      p ← loadFromDisk k;
      m_cache_assign k p;;
      mret p
  end.

Definition refresh (k : Key) : M World unit :=
  iter ← m_cache_find k;
  match iter with
  | Some _ => p ← loadFromDisk k; m_cache_assign k p
  | None => mret tt
  end.

Definition erase (k : Key) : M World unit :=
  iter ← m_cache_find k;
  match iter with
  | Some _ => m_cache_erase k
  | None => mret tt
  end.

Definition create (k : Key) (v : Value) : M World bool :=
  filename ← call_m_filename_func k;
  found ← fs_exists filename;
  if found : bool then mret false
  else
    let directory := fs.parent_path filename in
    directoryCreated ← fs_create_directories directory;
    if negb directoryCreated then mret false
    else
      file_handle ← ofstream_open filename;
      ofstream_put file_handle (Serialize v "xml");;
      refresh k;;
      ofstream_close file_handle (Serialize v "xml");;
      mret true.

(** concurrency_control_policies.hxx, [NoConcurrencyControl::LockEntry]:
    a reference to a [NoOpMutex], which the [std::lock_guard] adopts and
    unlocks; neither does anything. *)
Definition LockEntry (k : Key) : M World unit := mret tt.

(** An unqualified call [name(k)] on a key in a member function of
    [Cache], for what it does to the world.  The name is looked up among
    the members that [Cache] itself declares: [refresh] and [erase] are
    called this way, in [create] and in [remove].  The policy bases depend
    on the template parameters, so their members are found through
    [this->] only; [LockEntry] is one of them. *)
Definition unqualified_call (name : string) : option (Key → M World unit) :=
  if decide (name = "refresh") then Some refresh
  else if decide (name = "erase") then Some erase
  else None.

(** The statements of [remove] that follow its lock. *)
Definition remove_locked (k : Key) : M World bool :=
  filename ← call_m_filename_func k;
  let directory := fs.parent_path filename in
  found ← fs_exists directory;
  if negb found then mret false
  else
    let trash_directory :=
      fs.parent_path directory ++ ["trash"] ++ fs.parent_path filename in
    trash_parent_found ← fs_exists (fs.parent_path trash_directory);
    (if negb trash_parent_found
     then fs_create_directories (fs.parent_path trash_directory);; mret tt
     else mret tt);;
    fs_rename directory trash_directory;;
    erase k;;
    mret true.

(** [remove] starts with
    [std::lock_guard<EntryLockType> key_lock(LockEntry(k), std::adopt_lock);]
    where [operator[]], [create] and [refresh] write [this->LockEntry(k)]:
    it is a member function only if the unqualified call finds its
    callee. *)
Definition remove (k : Key) : option (M World bool) :=
  LockEntry ← unqualified_call "LockEntry";
  Some (LockEntry k ;; remove_locked k).

(** The statements of [callUpdateMemFn] that follow its lock.  The member
    function called works on the object the entry points to. *)
Definition callUpdateMemFn_locked (k : Key) (ptr_mem : Value → Value)
    : M World bool :=
  ptr ← operator_index k;
  match ptr with
  | None => mret false
  | Some v => m_cache_assign k (Some (ptr_mem v));; mret true
  end.

(** [callUpdateMemFn] starts with the same unqualified [LockEntry(k)]. *)
Definition callUpdateMemFn (k : Key) (ptr_mem : Value → Value)
    : option (M World bool) :=
  LockEntry ← unqualified_call "LockEntry";
  Some (LockEntry k ;; callUpdateMemFn_locked k ptr_mem).

(** The statements of [callGetterMemFn] that follow its lock. *)
Definition callGetterMemFn_locked {T} `{!Inhabited T} (k : Key) (ptr_mem : Value → T)
    : M World (bool * T) :=
  ptr ← operator_index k;
  match ptr with
  | None => mret (false, inhabitant)
  | Some v => mret (true, ptr_mem v)
  end.

(** [callGetterMemFn] starts with the same unqualified [LockEntry(k)]. *)
Definition callGetterMemFn {T} `{!Inhabited T} (k : Key) (ptr_mem : Value → T)
    : option (M World (bool * T)) :=
  LockEntry ← unqualified_call "LockEntry";
  Some (LockEntry k ;; callGetterMemFn_locked k ptr_mem).

Definition save : M World unit :=
  entries ← m_cache_entries;
  for_each entries (λ p,
    match p.2 with
    | Some v => writeToDisk p.1 v
    | None => mret tt
    end).

Definition forceClear : M World unit := m_cache_clear.

(** A call [this->name()], from [clear], of a member function without
    arguments and without result.  In a class template the name is looked
    up, when the member is instantiated, in [Cache] and in its policy
    bases.  Besides [clear] itself, [Cache] declares [save] and
    [forceClear]; the logging, serialization and concurrency policies
    declare no such member. *)
Definition this_call (name : string) : option (M World unit) :=
  if decide (name = "save") then Some save
  else if decide (name = "forceClear") then Some forceClear
  else None.

(** [clear] is [save(); this->force_clear();]: it is a member function
    only if the second call finds its callee. *)
Definition clear : option (M World unit) :=
  force_clear ← this_call "force_clear";
  Some (save ;; force_clear).

(** ** Notions used to state what the member functions do *)

(** The table after the [refresh] that [create] runs while its output
    stream is still open: an entry of [k], if there is one, is reloaded
    from what has reached the file by then. *)
Definition refreshed_early (k : Key) (v : Value) (m : gmap Key (option Value))
    : gmap Key (option Value) :=
  match m !! k with
  | Some _ =>
      <[k := Some (Deserialize (written_through (Serialize v "xml")) inhabitant "xml")]> m
  | None => m
  end.

(** The disk once a stream on [q] has been opened, written with [s]
    and closed. *)
Definition after_write (d : fs.filesystem) (q : fs.path) (s : string)
    : fs.filesystem :=
  if fs.can_open_for_writing d q then <[q := fs.File s]> d else d.

(** The disk once the body of the loop of [save] has run on an entry. *)
Definition after_save_entry (f : Key → fs.path) (d : fs.filesystem)
    (e : Key * option Value) : fs.filesystem :=
  match e.2 with
  | Some v => after_write d (f e.1) (Serialize v "xml")
  | None => d
  end.

(** The same, with the paths that can be opened given beforehand. *)
Definition after_save_entry_if (O : fs.path → bool) (f : Key → fs.path)
    (d : fs.filesystem) (e : Key * option Value) : fs.filesystem :=
  match e.2 with
  | Some v => if O (f e.1) then <[f e.1 := fs.File (Serialize v "xml")]> d else d
  | None => d
  end.

(** What the last non-null entry of [l] whose file is [q] serializes to. *)
Fixpoint last_write (f : Key → fs.path) (l : list (Key * option Value))
    (q : fs.path) : option string :=
  match l with
  | [] => None
  | e :: l' =>
      match last_write f l' q with
      | Some s => Some s
      | None =>
          match e.2 with
          | Some v => if decide (f e.1 = q) then Some (Serialize v "xml") else None
          | None => None
          end
      end
  end.

End Cache.

Arguments Cache Key {_ _} Value : assert.
Arguments World Key {_ _} Value : assert.
Arguments Cache_default {Key _ _ Value}.

(** * The default policies and the demonstration program's cache *)

(** [operator<<] and [operator>>] of a type. *)
Class Streamable (T : Type) := {
  put_to : T → string;
  get_from : string → T → T;
}.

(** serialization_policies.hxx, [OstreamOverload]: [os << v] and
    [is >> v]; the format is not looked at. *)
#[global] Instance OstreamOverload {T} `{!Streamable T} : SerializationPolicy T := {|
  Serialize v format := put_to v;
  Deserialize input v format := get_from input v;
|}.

Definition isspace (c : Ascii.ascii) : bool :=
  existsb (Ascii.eqb c) [" "; "009"; "010"; "011"; "012"; "013"]%char.

Fixpoint skipws (s : string) : string :=
  match s with
  | String c s' => if isspace c then skipws s' else s
  | EmptyString => EmptyString
  end.

Fixpoint word (s : string) : string :=
  match s with
  | String c s' => if isspace c then EmptyString else String c (word s')
  | EmptyString => EmptyString
  end.

(** [std::string]: [os << v] puts the characters of [v]; [is >> v] skips
    white space and reads up to the next white space, and leaves [v] as
    it is when nothing is left to read. *)
#[global] Instance string_streamable : Streamable string := {|
  put_to v := v;
  get_from input v := match word (skipws input) with
                   | EmptyString => v
                   | w => w
                   end;
|}.

#[global] Instance Z_less : Less Z := {| less := Z.lt |}.

#[global] Instance string_default : Inhabited string := populate EmptyString.

Module Demo.

(** A stream that keeps a short value in its buffer until it is closed. *)
#[export] Instance buffered : Filebuf := λ _, EmptyString.

(** [[](int i) { return "data/" + std::to_string(i) + "/value.txt"; }] *)
Definition filename (i : Z) : fs.path := ["data"; pretty i; "value.txt"].

Local Open Scope Z_scope.

(** The world a computation leaves; the world it started in if it
    throws. *)
Definition after {A} (c : M (World Z string) A) (w : World Z string)
    : World Z string :=
  match c w with
  | Returns _ w' => w'
  | Throws _ => w
  end.

(** [mrr::Cache<int, std::string> c; c.setFilenameFunction(...);] in an
    empty directory. *)
Definition w0 : World Z string :=
  after (setFilenameFunction filename) {| this := Cache_default; disk := ∅ |}.

(** Key 1 was created. *)
Definition w_created : World Z string := after (create 1 "one") w0.

(** Key 1 was created and loaded. *)
Definition w_loaded : World Z string :=
  after (create 1 "one" ;; operator_index 1) w0.

(** Key 1 was looked up and was not there. *)
Definition w_missed : World Z string := after (operator_index 1) w0.

(** Key 1 was created, loaded, and changed in memory, as the
    demonstration program does it:
    [auto ptr = c[1]; if (ptr != nullptr) *ptr = "one!";]
    The entry of the table shares the object with [ptr]. *)
Definition w_changed : World Z string :=
  after (ptr ← operator_index 1;
         match ptr with
         | Some _ => m_cache_assign 1 (Some "one!")
         | None => mret tt
         end) w_loaded.

(** A layout that keeps all files in one directory:
    [[](int i) { return "data/" + std::to_string(i) + ".txt"; }] *)
Definition flat_filename (i : Z) : fs.path := ["data"; pretty i +:+ ".txt"].

Definition flat_w0 : World Z string :=
  after (setFilenameFunction flat_filename) {| this := Cache_default; disk := ∅ |}.

(** In the flat layout: key 1 was created. *)
Definition flat_w_created : World Z string := after (create 1 "one") flat_w0.

(** In the flat layout: key 1 was created, key 2 was looked up and was
    not there. *)
Definition flat_w_missed : World Z string :=
  after (create 1 "one" ;; operator_index 2) flat_w0.

End Demo.

(** * PolymorphicCache (polymorphic_cache.hxx) *)

Module PolymorphicCache.
Section PolymorphicCache.
Context {Key : Type} `{Countable Key} `{!Less Key}.
Context {Value : Type}.
Context {filebuf : Filebuf}.

(** The class has the same two members as [Cache], [m_cache] and
    [m_filename_func], and its member functions act on the same [World].
    It takes no policies: it writes and reads its values with
    [cerealise(os, p, format)] and [decerealise(is, p, format)], which these
    sources call and do not define, and it asks a value for its key with
    [getUID()], a member of the value type.  The three are taken as they
    come: what [cerealise] puts on the stream for the object a pointer
    points to, the pointer [decerealise] leaves from what a stream holds,
    and the key of a value. *)
Context (cerealise : Value → string → string).
Context (decerealise : string → string → option Value).
Context (getUID : Value → Key).

Definition loadFromDisk (k : Key) : M (World Key Value) (option Value) :=
  filename ← call_m_filename_func k;
  found ← fs_exists filename;
  if found : bool then
    file_handle ← ifstream_read filename;
    mret (decerealise file_handle "xml")
  else
    mret None.

Definition writeToDisk (k : Key) (v : Value) : M (World Key Value) unit :=
  filename ← call_m_filename_func k;
  file_handle ← ofstream_open filename;
  ofstream_put file_handle (cerealise v "xml");;
  ofstream_close file_handle (cerealise v "xml").

Definition operator_index (k : Key) : M (World Key Value) (option Value) :=
  iter ← m_cache_find k;
  match iter with
  | Some second => mret second
  | None =>
      p ← loadFromDisk k;
      m_cache_assign k p;;
      mret p
  end.

Definition refresh (k : Key) : M (World Key Value) unit :=
  iter ← m_cache_find k;
  match iter with
  | Some _ => p ← loadFromDisk k; m_cache_assign k p
  | None => mret tt
  end.

(** [create(k, v)] takes a pointer and dereferences it for [getUID()]:
    [v] is the object of a pointer that is not null. *)
Definition create (k : Key) (v : Value) : M (World Key Value) bool :=
  filename ← call_m_filename_func k;
  found ← fs_exists filename;
  if found : bool then mret false
  else
    let directory := fs.parent_path filename in
    directoryCreated ← fs_create_directories directory;
    if negb directoryCreated then mret false
    else
      file_handle ← ofstream_open filename;
      ofstream_put file_handle (cerealise v "xml");;
      refresh (getUID v);;
      ofstream_close file_handle (cerealise v "xml");;
      mret true.

Definition save : M (World Key Value) unit :=
  entries ← m_cache_entries;
  for_each entries (λ p,
    match p.2 with
    | Some v => writeToDisk p.1 v
    | None => mret tt
    end).

Definition force_clear : M (World Key Value) unit := m_cache_clear.

Definition clear : M (World Key Value) unit :=
  save;;
  force_clear.

(** ** Notions used to state what the member functions do *)

(** [cerealise] and [decerealise] seen as a serialization policy, so that
    what is known of the loop of [Cache::save] carries over. *)
Definition cereal : SerializationPolicy Value := {|
  Serialize := cerealise;
  Deserialize input v format := default v (decerealise input format);
|}.

End PolymorphicCache.
End PolymorphicCache.

(** * Words *)

(** A string without white space. *)
Fixpoint no_space (s : string) : bool :=
  match s with
  | EmptyString => true
  | String c s' => negb (isspace c) && no_space s'
  end.

(** * More worlds of the demonstration cache *)

Module Usage.
Import Demo.
Local Open Scope Z_scope.

(** A default-constructed cache, before [setFilenameFunction]. *)
Definition w_unset : World Z string :=
  {| this := Cache_default; disk := ∅ |}.

(** Key 1 was created and loaded, and its directory was then taken away
    behind the back of the cache. *)
Definition w_orphan : World Z string := with_disk ∅ w_loaded.

(** A regular file named [data] sits where the directory of every key
    would have to be. *)
Definition w_blocked : World Z string :=
  with_disk {[ ["data"] := fs.File "junk" ]} w0.

(** Keys 1 and 2 were created. *)
Definition w_two : World Z string :=
  after (create 1 "one" ;; create 2 "two") w0.

(** Objects for a [PolymorphicCache<int, _>]: a text that is written as
    it is, read back as it is unless nothing is there, and whose key is
    its length. *)
Definition text_cerealise (v : string) (format : string) : string := v.

Definition text_decerealise (input : string) (format : string) : option string :=
  match input with
  | EmptyString => None
  | _ => Some input
  end.

Definition text_getUID (v : string) : Z := Z.of_nat (String.length v).

(** Key 1 was looked up in a [PolymorphicCache] and was not there. *)
Definition pw_missed : World Z string :=
  after (PolymorphicCache.operator_index text_decerealise 1) w0.

(** Key 3 was created in a [PolymorphicCache], loaded, and its directory
    kept; the entry is non-null. *)
Definition pw_loaded : World Z string :=
  after (PolymorphicCache.create text_cerealise text_decerealise text_getUID 3 "abc" ;;
         PolymorphicCache.operator_index text_decerealise 3) w0.

End Usage.

(** * Running a computation *)

Lemma bind_Returns {S A B} (c : M S A) (k : A → M S B) s a s' :
  c s = Returns a s' → (c ≫= k) s = k a s'.
Proof. intros Hc. unfold mbind, M_bind. by rewrite Hc. Qed.

Lemma bind_Throws {S A B} (c : M S A) (k : A → M S B) s e :
  c s = Throws e → (c ≫= k) s = Throws e.
Proof. intros Hc. unfold mbind, M_bind. by rewrite Hc. Qed.

Lemma bind_Returns_inv {S A B} (c : M S A) (k : A → M S B) s b s'' :
  (c ≫= k) s = Returns b s'' →
  ∃ a s', c s = Returns a s' ∧ k a s' = Returns b s''.
Proof.
  unfold mbind, M_bind. destruct (c s) as [a s'|e]; [eauto | discriminate].
Qed.

(** * Facts about the directory tree *)

Section fs_facts.
Implicit Types (d : fs.filesystem) (p q t old new pre r rest : fs.path).
Implicit Types (n : fs.node).

Lemma parent_path_snoc p c : fs.parent_path (p ++ [c]) = p.
Proof. apply removelast_last. Qed.

Lemma parent_path_spec p : p ≠ [] → ∃ c, p = fs.parent_path p ++ [c].
Proof.
  intros Hp. destruct (exists_last Hp) as (p' & c & ->).
  exists c. by rewrite parent_path_snoc.
Qed.

Lemma exists_true d p : p ≠ [] → is_Some (d !! p) → fs.exists_ d p = true.
Proof.
  intros Hp Hd. destruct p; [done|]. simpl. by apply bool_decide_eq_true.
Qed.

Lemma exists_false_lookup d p : p ≠ [] → fs.exists_ d p = false → d !! p = None.
Proof.
  intros Hp Hd. destruct p; [done|]. simpl in Hd.
  apply bool_decide_eq_false in Hd. by apply eq_None_not_Some.
Qed.

Lemma exists_none d p : d !! p = None → fs.exists_ d p = false.
Proof.
  intros Hd. destruct p; [done|]. simpl. apply bool_decide_eq_false.
  rewrite Hd. by intros [??].
Qed.

Lemma exists_true_inv d p : fs.exists_ d p = true → p ≠ [] ∧ is_Some (d !! p).
Proof.
  destruct p; [done|]. simpl. intros Hd%bool_decide_eq_true. done.
Qed.

Lemma file_content_insert d p s : fs.file_content (<[p := fs.File s]> d) p = s.
Proof. unfold fs.file_content. by rewrite lookup_insert_eq. Qed.

Lemma create_directories_from_longer base rest d b d' q :
  fs.create_directories_from base rest d = inr (b, d') →
  length base + length rest < length q →
  d' !! q = d !! q.
Proof.
  revert base d b d'. induction rest as [|c rest IH]; intros base d b d' Hc Hlen.
  - by injection Hc as <- <-.
  - simpl in Hc, Hlen.
    assert (length (base ++ [c]) + length rest < length q) as Hlen'
      by (rewrite length_app; simpl; lia).
    destruct (d !! (base ++ [c])) as [[s|]|] eqn:Hq; [done| |].
    + by apply (IH _ _ _ _ Hc).
    + destruct (fs.create_directories_from (base ++ [c]) rest
                  (<[base ++ [c] := fs.Directory]> d)) as [e|[b0 d0]] eqn:Hrec;
        [done|]. injection Hc as <- <-.
      rewrite (IH _ _ _ _ Hrec Hlen'). apply lookup_insert_ne.
      intros Heq. rewrite <- Heq in Hlen'. lia.
Qed.

Lemma create_directories_from_shorter base rest d b d' q :
  fs.create_directories_from base rest d = inr (b, d') →
  length q ≤ length base →
  d' !! q = d !! q.
Proof.
  revert base d b d'. induction rest as [|c rest IH]; intros base d b d' Hc Hlen.
  - by injection Hc as <- <-.
  - simpl in Hc.
    assert (length q ≤ length (base ++ [c])) as Hlen'
      by (rewrite length_app; simpl; lia).
    destruct (d !! (base ++ [c])) as [[s|]|] eqn:Hq; [done| |].
    + by apply (IH _ _ _ _ Hc).
    + destruct (fs.create_directories_from (base ++ [c]) rest
                  (<[base ++ [c] := fs.Directory]> d)) as [e|[b0 d0]] eqn:Hrec;
        [done|]. injection Hc as <- <-.
      rewrite (IH _ _ _ _ Hrec Hlen'). apply lookup_insert_ne.
      intros Heq. rewrite <- Heq, length_app in Hlen. simpl in Hlen. lia.
Qed.

Lemma create_directories_from_is_directory base rest d b d' :
  fs.create_directories_from base rest d = inr (b, d') →
  rest ≠ [] →
  d' !! (base ++ rest) = Some fs.Directory.
Proof.
  revert base d b d'. induction rest as [|c rest IH]; intros base d b d' Hc Hne;
    [done|]. simpl in Hc. rewrite (cons_middle c base rest), app_assoc.
  destruct (d !! (base ++ [c])) as [[s|]|] eqn:Hq; [done| |].
  - destruct rest as [|c' rest].
    + injection Hc as <- <-. by rewrite app_nil_r.
    + by apply (IH _ _ _ _ Hc).
  - destruct (fs.create_directories_from (base ++ [c]) rest
                (<[base ++ [c] := fs.Directory]> d)) as [e|[b0 d0]] eqn:Hrec;
      [done|]. injection Hc as <- <-.
    destruct rest as [|c' rest].
    + injection Hrec as <- <-. rewrite app_nil_r. apply lookup_insert_eq.
    + by apply (IH _ _ _ _ Hrec).
Qed.

Lemma create_directories_from_nothing_new base rest d d' :
  fs.create_directories_from base rest d = inr (false, d') → d' = d.
Proof.
  revert base d d'. induction rest as [|c rest IH]; intros base d d' Hc.
  - by injection Hc as <-.
  - simpl in Hc. destruct (d !! (base ++ [c])) as [[s|]|] eqn:Hq; [done| |].
    + by apply (IH _ _ _ Hc).
    + by destruct (fs.create_directories_from (base ++ [c]) rest
                     (<[base ++ [c] := fs.Directory]> d)) as [e|[b0 d0]].
Qed.

Lemma create_directories_nonempty d p (res : bool * fs.filesystem) :
  fs.create_directories d p = inr res → p ≠ [].
Proof. by destruct p. Qed.

Lemma create_directories_from_eq d p :
  p ≠ [] → fs.create_directories d p = fs.create_directories_from [] p d.
Proof. by destruct p. Qed.

(** After [create_directories(p)] the path [p] is a directory, and what
    lies below [p] is as before. *)
Lemma create_directories_is_directory d p b d' :
  fs.create_directories d p = inr (b, d') → d' !! p = Some fs.Directory.
Proof.
  intros Hc. pose proof (create_directories_nonempty _ _ _ Hc) as Hp.
  rewrite create_directories_from_eq in Hc by done.
  by apply (create_directories_from_is_directory [] p d b d').
Qed.

Lemma create_directories_longer d p b d' q :
  fs.create_directories d p = inr (b, d') →
  length p < length q → d' !! q = d !! q.
Proof.
  intros Hc Hlen. pose proof (create_directories_nonempty _ _ _ Hc) as Hp.
  rewrite create_directories_from_eq in Hc by done.
  by apply (create_directories_from_longer [] p d b d').
Qed.

Lemma create_directories_nothing_new d p d' :
  fs.create_directories d p = inr (false, d') → d' = d.
Proof.
  intros Hc. pose proof (create_directories_nonempty _ _ _ Hc) as Hp.
  rewrite create_directories_from_eq in Hc by done.
  by apply (create_directories_from_nothing_new [] p d d').
Qed.

Lemma well_formed_ancestor d q r :
  fs.well_formed d → is_Some (d !! (q ++ r)) → q ≠ [] → r ≠ [] →
  d !! q = Some fs.Directory.
Proof.
  intros Hwf. induction r as [|c r IH] using rev_ind; [done|].
  intros [n Hn] Hq _. destruct (Hwf _ _ Hn) as [_ Hdir].
  rewrite app_assoc, parent_path_snoc in Hdir.
  assert (d !! (q ++ r) = Some fs.Directory) as Hqr.
  { unfold fs.is_directory_or_start in Hdir.
    destruct (q ++ r) eqn:Heq; [by destruct q|]. by apply bool_decide_eq_true in Hdir. }
  destruct r as [|c' r'].
  - by rewrite app_nil_r in Hqr.
  - apply IH; [by rewrite Hqr|done|done].
Qed.

Lemma create_directories_from_all_there base rest d :
  (∀ r1 r2, rest = r1 ++ r2 → r1 ≠ [] → d !! (base ++ r1) = Some fs.Directory) →
  fs.create_directories_from base rest d = inr (false, d).
Proof.
  revert base. induction rest as [|c rest IH]; intros base Hall; [done|].
  simpl. rewrite (Hall [c] rest) by done. apply IH.
  intros r1 r2 -> Hr1. rewrite <- app_assoc. by apply (Hall (c :: r1) r2).
Qed.

(** In a well-formed tree [create_directories] on a directory that is
    there creates nothing and reports [false]. *)
Lemma create_directories_existing d p :
  fs.well_formed d → d !! p = Some fs.Directory →
  fs.create_directories d p = inr (false, d).
Proof.
  intros Hwf Hp.
  assert (p ≠ []) as Hne by (intros ->; by destruct (Hwf _ _ Hp)).
  rewrite create_directories_from_eq by done.
  apply create_directories_from_all_there. intros r1 r2 -> Hr1. simpl.
  destruct r2 as [|c r2].
  - by rewrite app_nil_r in Hp.
  - apply (well_formed_ancestor d r1 (c :: r2)); [done|by rewrite Hp|done|done].
Qed.

(** A file that is not there yet can be opened for writing once its
    directory has been created. *)
Lemma can_open_after_create_directories d p b d' :
  fs.exists_ d p = false →
  fs.create_directories d (fs.parent_path p) = inr (b, d') →
  p ≠ [] ∧ d' !! p = None ∧ fs.can_open_for_writing d' p = true.
Proof.
  intros Hex Hc. pose proof (create_directories_nonempty _ _ _ Hc) as Hpp.
  assert (p ≠ []) as Hp by (by intros ->).
  destruct (parent_path_spec p Hp) as [c Hpc].
  assert (d' !! p = None) as Hnone.
  { rewrite (create_directories_longer _ _ _ _ p Hc).
    - by apply exists_false_lookup.
    - rewrite Hpc at 2. rewrite length_app. simpl. lia. }
  split_and!; [done|done|].
  unfold fs.can_open_for_writing. destruct p as [|c0 p0]; [done|].
  apply andb_true_iff. split.
  - unfold fs.is_directory_or_start.
    destruct (fs.parent_path (c0 :: p0)) eqn:Hpar; [done|].
    apply bool_decide_eq_true. by apply (create_directories_is_directory d _ b).
  - apply bool_decide_eq_true. by rewrite Hnone.
Qed.

Lemma strip_prefix_Some pre p r :
  fs.strip_prefix pre p = Some r ↔ p = pre ++ r.
Proof.
  revert p. induction pre as [|a pre IH]; intros p; simpl.
  - split; [by intros [= ->]|by intros ->].
  - destruct p as [|b p]; [done|]. case_decide as Hab.
    + subst b. rewrite IH. split; [by intros ->|by intros [= ->]].
    + split; [done|]. intros [= ? ?]. done.
Qed.

Lemma strip_prefix_app pre r : fs.strip_prefix pre (pre ++ r) = Some r.
Proof. by apply strip_prefix_Some. Qed.

Lemma strip_prefix_None pre p :
  fs.strip_prefix pre p = None ↔ ¬ pre `prefix_of` p.
Proof.
  split.
  - intros Hs [r ->]. by rewrite strip_prefix_app in Hs.
  - intros Hn. destruct (fs.strip_prefix pre p) as [r|] eqn:Hs; [|done].
    apply strip_prefix_Some in Hs as ->. destruct Hn. by exists r.
Qed.

Lemma relocate_below old new r : fs.relocate old new (old ++ r) = new ++ r.
Proof. unfold fs.relocate. by rewrite strip_prefix_app. Qed.

Lemma relocate_elsewhere old new p :
  ¬ old `prefix_of` p → fs.relocate old new p = p.
Proof. intros Hn%strip_prefix_None. unfold fs.relocate. by rewrite Hn. Qed.

Lemma relocate_fold_lookup old new (m : fs.filesystem) t :
  (∀ p, is_Some (m !! p) → ¬ new `prefix_of` p) →
  map_fold (λ p n (acc : fs.filesystem), <[fs.relocate old new p := n]> acc) ∅ m !! t
  = match fs.strip_prefix new t with
    | Some rest => m !! (old ++ rest)
    | None => if decide (old `prefix_of` t) then None else m !! t
    end.
Proof.
  revert t.
  apply (map_fold_weak_ind (λ (r m : fs.filesystem),
    ∀ t, (∀ p, is_Some (m !! p) → ¬ new `prefix_of` p) →
         r !! t = match fs.strip_prefix new t with
                  | Some rest => m !! (old ++ rest)
                  | None => if decide (old `prefix_of` t) then None else m !! t
                  end)).
  - intros t _. rewrite !lookup_empty.
    destruct (fs.strip_prefix new t); [done|]. by case_decide.
  - intros i x m0 r Hi IH t Hpre.
    assert (∀ p, is_Some (m0 !! p) → ¬ new `prefix_of` p) as Hpre0.
    { intros p Hp. apply Hpre. rewrite lookup_insert_ne; [done|].
      intros ->. rewrite Hi in Hp. by destruct Hp. }
    assert (¬ new `prefix_of` i) as Hin.
    { apply Hpre. rewrite lookup_insert_eq. eauto. }
    destruct (decide (fs.relocate old new i = t)) as [<-|Hne].
    + rewrite lookup_insert_eq.
      destruct (fs.strip_prefix old i) as [ri|] eqn:Hs.
      * apply strip_prefix_Some in Hs as ->.
        rewrite relocate_below, strip_prefix_app. by rewrite lookup_insert_eq.
      * apply strip_prefix_None in Hs. rewrite relocate_elsewhere by done.
        apply strip_prefix_None in Hin. rewrite Hin.
        rewrite decide_False by done. by rewrite lookup_insert_eq.
    + rewrite lookup_insert_ne by done. rewrite IH by done.
      destruct (fs.strip_prefix new t) as [rest|] eqn:Hn.
      * apply strip_prefix_Some in Hn as ->.
        rewrite lookup_insert_ne; [done|]. intros ->.
        by rewrite relocate_below in Hne.
      * case_decide as Ho; [done|].
        rewrite lookup_insert_ne; [done|]. intros ->.
        by rewrite relocate_elsewhere in Hne.
Qed.

Lemma move_lookup d old new t :
  fs.move d old new !! t
  = match fs.strip_prefix new t with
    | Some rest =>
        if decide (new `prefix_of` old ++ rest) then None else d !! (old ++ rest)
    | None => if decide (old `prefix_of` t) then None else d !! t
    end.
Proof.
  unfold fs.move. rewrite relocate_fold_lookup.
  - destruct (fs.strip_prefix new t) as [rest|] eqn:Hn.
    + case_decide as Hno.
      * apply map_lookup_filter_None. right. intros n _. simpl. tauto.
      * destruct (d !! (old ++ rest)) as [n|] eqn:Hd.
        -- by apply map_lookup_filter_Some.
        -- apply map_lookup_filter_None. by left.
    + case_decide; [done|]. apply strip_prefix_None in Hn.
      destruct (d !! t) as [n|] eqn:Hd.
      * by apply map_lookup_filter_Some.
      * apply map_lookup_filter_None. by left.
  - intros p [n Hp]. by apply map_lookup_filter_Some in Hp as [_ ?].
Qed.

(** What was at or below [old] is at or below [new] after the move. *)
Lemma move_lookup_new d old new rest :
  ¬ new `prefix_of` old ++ rest →
  fs.move d old new !! (new ++ rest) = d !! (old ++ rest).
Proof.
  intros Hn. rewrite move_lookup, strip_prefix_app. by rewrite decide_False.
Qed.

(** Nothing is left at or below [old]. *)
Lemma move_lookup_old d old new t :
  ¬ new `prefix_of` t → old `prefix_of` t → fs.move d old new !! t = None.
Proof.
  intros Hn%strip_prefix_None Ho. rewrite move_lookup, Hn. by rewrite decide_True.
Qed.

Lemma create_directories_from_elsewhere base rest d b d' q :
  fs.create_directories_from base rest d = inr (b, d') →
  ¬ q `prefix_of` base ++ rest →
  d' !! q = d !! q.
Proof.
  revert base d b d'. induction rest as [|c rest IH]; intros base d b d' Hc Hq.
  - by injection Hc as <- <-.
  - simpl in Hc. rewrite (cons_middle c base rest), app_assoc in Hq.
    destruct (d !! (base ++ [c])) as [[s|]|] eqn:Hbc; [done| |].
    + by apply (IH _ _ _ _ Hc).
    + destruct (fs.create_directories_from (base ++ [c]) rest
                  (<[base ++ [c] := fs.Directory]> d)) as [e|[b0 d0]] eqn:Hrec;
        [done|]. injection Hc as <- <-.
      rewrite (IH _ _ _ _ Hrec Hq). apply lookup_insert_ne.
      intros <-. apply Hq. by apply prefix_app_r.
Qed.

Lemma create_directories_elsewhere d p b d' q :
  fs.create_directories d p = inr (b, d') →
  ¬ q `prefix_of` p → d' !! q = d !! q.
Proof.
  intros Hc Hq. pose proof (create_directories_nonempty _ _ _ Hc) as Hp.
  rewrite create_directories_from_eq in Hc by done.
  by apply (create_directories_from_elsewhere [] p d b d').
Qed.

Lemma create_directories_from_succeeds base rest d :
  (∀ r1 r2 s, rest = r1 ++ r2 → d !! (base ++ r1) ≠ Some (fs.File s)) →
  ∃ b d', fs.create_directories_from base rest d = inr (b, d').
Proof.
  revert base d. induction rest as [|c rest IH]; intros base d Hfile; simpl.
  - eauto.
  - destruct (d !! (base ++ [c])) as [[s|]|] eqn:Hbc.
    + by destruct (Hfile [c] rest s).
    + apply IH. intros r1 r2 s ->. rewrite <- app_assoc.
      by apply (Hfile (c :: r1) r2).
    + destruct (IH (base ++ [c]) (<[base ++ [c] := fs.Directory]> d))
        as (b & d' & ->); [|eauto].
      intros r1 r2 s ->. destruct (decide (r1 = [])) as [->|Hr1].
      * by rewrite app_nil_r, lookup_insert_eq.
      * rewrite lookup_insert_ne.
        -- rewrite <- app_assoc. by apply (Hfile (c :: r1) r2).
        -- intros Heq. apply Hr1. apply (f_equal length) in Heq.
           rewrite !length_app in Heq. simpl in Heq.
           apply length_zero_iff_nil. lia.
Qed.

Lemma create_directories_from_new base rest d b d' :
  fs.create_directories_from base rest d = inr (b, d') →
  rest ≠ [] → d !! (base ++ rest) = None → b = true.
Proof.
  revert base d b d'. induction rest as [|c rest IH]; intros base d b d' Hc Hne Hd;
    [done|]. simpl in Hc. rewrite (cons_middle c base rest), app_assoc in Hd.
  destruct (d !! (base ++ [c])) as [[s|]|] eqn:Hbc; [done| |].
  - destruct rest as [|c' rest].
    + rewrite app_nil_r in Hd. congruence.
    + by apply (IH _ _ _ _ Hc).
  - destruct (fs.create_directories_from (base ++ [c]) rest
                (<[base ++ [c] := fs.Directory]> d)) as [e|[b0 d0]]; [done|].
    by injection Hc as <- <-.
Qed.

(** [create_directories] on a path that is not there reports a new
    directory when it goes through. *)
Lemma create_directories_new d p b d' :
  fs.create_directories d p = inr (b, d') → d !! p = None → b = true.
Proof.
  intros Hc Hd. pose proof (create_directories_nonempty _ _ _ Hc) as Hp.
  rewrite create_directories_from_eq in Hc by done.
  by apply (create_directories_from_new [] p d b d').
Qed.

(** [create_directories] goes through when no regular file is in the
    way. *)
Lemma create_directories_succeeds d p :
  p ≠ [] →
  (∀ q s, q `prefix_of` p → d !! q ≠ Some (fs.File s)) →
  ∃ b d', fs.create_directories d p = inr (b, d').
Proof.
  intros Hp Hfile. rewrite create_directories_from_eq by done.
  apply create_directories_from_succeeds. intros r1 r2 s ->. simpl.
  apply Hfile. by apply prefix_app_r.
Qed.

Lemma parent_path_prefix p : fs.parent_path p `prefix_of` p.
Proof.
  destruct (decide (p = [])) as [->|Hp]; [done|].
  destruct (parent_path_spec p Hp) as [c Hc]. rewrite Hc at 2.
  by apply prefix_app_r.
Qed.

Lemma parent_path_length p : p ≠ [] → length p = S (length (fs.parent_path p)).
Proof.
  intros Hp. destruct (parent_path_spec p Hp) as [c Hc]. rewrite Hc at 1.
  rewrite length_app. simpl. lia.
Qed.

(** [rename] onto a name that is free, in a directory that is there. *)
Lemma rename_onto_free d old new n :
  d !! old = Some n →
  ¬ old `prefix_of` new →
  fs.parent_path new ≠ [] →
  d !! fs.parent_path new = Some fs.Directory →
  d !! new = None →
  fs.rename d old new = inr (fs.move d old new).
Proof.
  intros Hold Hpre Hpne Hpar Hnew. unfold fs.rename. rewrite Hold.
  rewrite decide_False by (by intros ->).
  assert (fs.is_directory_or_start d (fs.parent_path new) = true) as ->.
  { destruct (fs.parent_path new); [done|]. simpl. by apply bool_decide_eq_true. }
  simpl. rewrite bool_decide_eq_false_2 by done. rewrite Hnew. by destruct n.
Qed.

(** A [rename] that goes through, between two different paths, is a
    move, and [old] was not above [new]. *)
Lemma rename_inr_inv d old new d' :
  fs.rename d old new = inr d' → old ≠ new →
  d' = fs.move d old new ∧ ¬ old `prefix_of` new.
Proof.
  unfold fs.rename. intros Hr Hne. destruct (d !! old) as [n|]; [|done].
  rewrite decide_False in Hr by done.
  destruct (negb _); [done|]. case_bool_decide as Hpre; [done|].
  split; [|done].
  destruct n, (d !! new) as [[|]|]; try done; try (by injection Hr).
  destruct (fs.has_entries_below d new); [done|by injection Hr].
Qed.

Lemma same_directories_refl d : fs.same_directories d d.
Proof. by intros q. Qed.

Lemma same_directories_trans d1 d2 d3 :
  fs.same_directories d1 d2 → fs.same_directories d2 d3 →
  fs.same_directories d1 d3.
Proof. intros H12 H23 q. etrans; [apply H23 | apply H12]. Qed.

Lemma same_directories_insert_file d q s :
  d !! q ≠ Some fs.Directory →
  fs.same_directories d (<[q := fs.File s]> d).
Proof.
  intros Hq q'. destruct (decide (q = q')) as [<-|Hne].
  - rewrite lookup_insert_eq. naive_solver.
  - by rewrite lookup_insert_ne.
Qed.

Lemma is_directory_or_start_same d d' q :
  fs.same_directories d d' →
  fs.is_directory_or_start d' q = fs.is_directory_or_start d q.
Proof.
  intros Hs. destruct q as [|c q]; [done|]. simpl.
  apply bool_decide_ext, Hs.
Qed.

(** Whether a path can be opened for writing depends on the directories
    only. *)
Lemma can_open_for_writing_same d d' q :
  fs.same_directories d d' →
  fs.can_open_for_writing d' q = fs.can_open_for_writing d q.
Proof.
  intros Hs. destruct q as [|c q]; [done|]. unfold fs.can_open_for_writing.
  rewrite (is_directory_or_start_same d d') by done. f_equal.
  apply bool_decide_ext. by rewrite (Hs (c :: q)).
Qed.

Lemma can_open_for_writing_not_directory d q :
  fs.can_open_for_writing d q = true → d !! q ≠ Some fs.Directory.
Proof.
  destruct q as [|c q]; [done|]. unfold fs.can_open_for_writing.
  intros [_ Hq]%andb_true_iff. by apply bool_decide_eq_true in Hq.
Qed.

End fs_facts.

Section Cache_facts.
Context {Key : Type} `{Countable Key} `{!Less Key}.
Context {Value : Type} `{!Inhabited Value} `{!SerializationPolicy Value}.
Context {filebuf : Filebuf}.
Implicit Types (w : World Key Value) (k : Key) (v : Value).
Implicit Types (f : Key → fs.path) (p : option Value).

Lemma with_m_cache_id w : with_m_cache (λ m, m) w = w.
Proof. by destruct w as [[??]?]. Qed.

Lemma with_disk_id w : with_disk (disk w) w = w.
Proof. by destruct w as [[??]?]. Qed.

Lemma call_m_filename_func_set w f k :
  m_filename_func (this w) = Some f →
  call_m_filename_func k w = Returns (f k) w.
Proof. intros Hf. unfold call_m_filename_func. by rewrite Hf. Qed.

(** [loadFromDisk] reads and never writes. *)
Lemma loadFromDisk_found w f k :
  m_filename_func (this w) = Some f →
  fs.exists_ (disk w) (f k) = true →
  loadFromDisk k w
  = Returns (Some (Deserialize (fs.file_content (disk w) (f k)) inhabitant "xml")) w.
Proof.
  intros Hf Hex. unfold loadFromDisk.
  rewrite (bind_Returns _ _ _ _ _ (call_m_filename_func_set _ _ _ Hf)).
  unfold mbind, M_bind, fs_exists. by rewrite Hex.
Qed.

Lemma loadFromDisk_missing w f k :
  m_filename_func (this w) = Some f →
  fs.exists_ (disk w) (f k) = false →
  loadFromDisk k w = Returns None w.
Proof.
  intros Hf Hex. unfold loadFromDisk.
  rewrite (bind_Returns _ _ _ _ _ (call_m_filename_func_set _ _ _ Hf)).
  unfold mbind, M_bind, fs_exists. by rewrite Hex.
Qed.

Lemma operator_index_hit w k p :
  m_cache (this w) !! k = Some p → operator_index k w = Returns p w.
Proof.
  intros Hk. unfold operator_index, mbind, M_bind, m_cache_find. by rewrite Hk.
Qed.

Lemma operator_index_load w f k :
  m_filename_func (this w) = Some f →
  m_cache (this w) !! k = None →
  fs.exists_ (disk w) (f k) = true →
  let p := Some (Deserialize (fs.file_content (disk w) (f k)) inhabitant "xml") in
  operator_index k w = Returns p (with_m_cache (insert k p) w).
Proof.
  intros Hf Hk Hex. unfold operator_index, mbind at 1, M_bind at 1, m_cache_find.
  rewrite Hk. by rewrite (bind_Returns _ _ _ _ _ (loadFromDisk_found _ _ _ Hf Hex)).
Qed.

Lemma operator_index_miss w f k :
  m_filename_func (this w) = Some f →
  m_cache (this w) !! k = None →
  fs.exists_ (disk w) (f k) = false →
  operator_index k w = Returns None (with_m_cache (insert k None) w).
Proof.
  intros Hf Hk Hex. unfold operator_index, mbind at 1, M_bind at 1, m_cache_find.
  rewrite Hk. by rewrite (bind_Returns _ _ _ _ _ (loadFromDisk_missing _ _ _ Hf Hex)).
Qed.

Lemma refresh_untouched w k :
  m_cache (this w) !! k = None → refresh k w = Returns tt w.
Proof.
  intros Hk. unfold refresh, mbind, M_bind, m_cache_find. by rewrite Hk.
Qed.

Lemma refresh_found w f k p :
  m_filename_func (this w) = Some f →
  m_cache (this w) !! k = Some p →
  fs.exists_ (disk w) (f k) = true →
  refresh k w
  = Returns tt (with_m_cache
      (insert k (Some (Deserialize (fs.file_content (disk w) (f k)) inhabitant "xml"))) w).
Proof.
  intros Hf Hk Hex. unfold refresh, mbind at 1, M_bind at 1, m_cache_find.
  rewrite Hk. by rewrite (bind_Returns _ _ _ _ _ (loadFromDisk_found _ _ _ Hf Hex)).
Qed.

Lemma refresh_missing w f k p :
  m_filename_func (this w) = Some f →
  m_cache (this w) !! k = Some p →
  fs.exists_ (disk w) (f k) = false →
  refresh k w = Returns tt (with_m_cache (insert k None) w).
Proof.
  intros Hf Hk Hex. unfold refresh, mbind at 1, M_bind at 1, m_cache_find.
  rewrite Hk. by rewrite (bind_Returns _ _ _ _ _ (loadFromDisk_missing _ _ _ Hf Hex)).
Qed.

Lemma erase_Returns w k :
  erase k w = Returns tt (with_m_cache (delete k) w).
Proof.
  unfold erase, mbind, M_bind, m_cache_find, m_cache_erase.
  destruct (m_cache (this w) !! k) as [p|] eqn:Hk; [done|].
  unfold mret, M_ret. f_equal. unfold with_m_cache.
  rewrite delete_id by done. by destruct w as [[??]?].
Qed.

(** Claim C5.  [operator[]] always returns once the filename function is
    set, and leaves the disk as it is.  A key found in the table yields
    the stored pointer and changes nothing; a key not in the table is
    loaded through the filename function: when its file exists the value
    read from it is stored and returned, and when it does not a null entry
    is stored and null is returned. *)
Theorem operator_index_lookup w f k :
  m_filename_func (this w) = Some f →
  ∃ r w',
    operator_index k w = Returns r w' ∧
    disk w' = disk w ∧
    (∀ p, m_cache (this w) !! k = Some p → r = p ∧ w' = w) ∧
    (m_cache (this w) !! k = None → fs.exists_ (disk w) (f k) = true →
       r = Some (Deserialize (fs.file_content (disk w) (f k)) inhabitant "xml") ∧
       m_cache (this w') = <[k := r]> (m_cache (this w))) ∧
    (m_cache (this w) !! k = None → fs.exists_ (disk w) (f k) = false →
       r = None ∧ m_cache (this w') = <[k := None]> (m_cache (this w))).
Proof.
  intros Hf. destruct (m_cache (this w) !! k) as [p|] eqn:Hk.
  - exists p, w. rewrite (operator_index_hit _ _ _ Hk).
    split_and!; [done|done| |done|done]. by intros ? [= <-].
  - destruct (fs.exists_ (disk w) (f k)) eqn:Hex.
    + eexists _, _. rewrite (operator_index_load _ _ _ Hf Hk Hex).
      split_and!; [done|done|done|done|done].
    + eexists _, _. rewrite (operator_index_miss _ _ _ Hf Hk Hex).
      split_and!; [done|done|done|done|done].
Qed.

Lemma create_duplicate w f k v :
  m_filename_func (this w) = Some f →
  fs.exists_ (disk w) (f k) = true →
  create k v w = Returns false w.
Proof.
  intros Hf Hex. unfold create.
  rewrite (bind_Returns _ _ _ _ _ (call_m_filename_func_set _ _ _ Hf)).
  unfold mbind, M_bind, fs_exists. by rewrite Hex.
Qed.

Lemma fs_create_directories_Returns w q b d' :
  fs.create_directories (disk w) q = inr (b, d') →
  fs_create_directories q w = Returns b (with_disk d' w).
Proof. intros Hc. unfold fs_create_directories. by rewrite Hc. Qed.

Lemma ofstream_open_Returns w q :
  fs.can_open_for_writing (disk w) q = true →
  ofstream_open q w
  = Returns {| os_path := q; os_is_open := true |}
            (with_disk (<[q := fs.File ""]> (disk w)) w).
Proof. intros Hc. unfold ofstream_open. by rewrite Hc. Qed.

(** [create] on a key whose file is not there, when [create_directories]
    reports a new directory: the value is written and [true] returned. *)
Lemma create_fresh w f k v d' :
  m_filename_func (this w) = Some f →
  fs.exists_ (disk w) (f k) = false →
  fs.create_directories (disk w) (fs.parent_path (f k)) = inr (true, d') →
  create k v w
  = Returns true (with_disk (<[f k := fs.File (Serialize v "xml")]> d')
                    (with_m_cache (refreshed_early k v) w)).
Proof.
  intros Hf Hex Hc.
  destruct (can_open_after_create_directories _ _ _ _ Hex Hc) as (Hp & Hnone & Hopen).
  unfold create.
  rewrite (bind_Returns _ _ _ _ _ (call_m_filename_func_set _ _ _ Hf)).
  unfold mbind at 1, M_bind at 1, fs_exists. rewrite Hex.
  rewrite (bind_Returns _ _ _ _ _ (fs_create_directories_Returns _ _ _ _ Hc)).
  cbn [negb].
  rewrite (bind_Returns _ _ _ _ _ (ofstream_open_Returns (with_disk d' w) _ Hopen)).
  unfold mbind at 1, M_bind at 1, ofstream_put. simpl os_is_open. cbv iota.
  simpl os_path. simpl disk. rewrite insert_insert_eq.
  set (wa := with_disk _ (with_disk _ (with_disk d' w))).
  assert (fs.exists_ (disk wa) (f k) = true) as Hex'.
  { apply exists_true; [done|]. simpl. rewrite lookup_insert_eq. eauto. }
  assert (refresh k wa
          = Returns tt (with_m_cache (refreshed_early k v) wa)) as Href.
  { unfold refreshed_early.
    destruct (m_cache (this w) !! k) as [p|] eqn:Hk.
    - rewrite (refresh_found wa f k p Hf Hk Hex').
      simpl. rewrite file_content_insert.
      unfold with_m_cache. simpl. by rewrite Hk.
    - rewrite (refresh_untouched wa k Hk).
      unfold with_m_cache. simpl. rewrite Hk. by destruct w as [[??]?]. }
  rewrite (bind_Returns _ _ _ _ _ Href).
  unfold mbind, M_bind, ofstream_close, mret, M_ret. simpl.
  f_equal. unfold with_disk. simpl. by rewrite insert_insert_eq.
Qed.

(** [create] for a key whose directory is not there and can be made:
    the value is written and [true] returned. *)
Lemma create_in_new_directory w f k v :
  m_filename_func (this w) = Some f →
  fs.parent_path (f k) ≠ [] →
  disk w !! fs.parent_path (f k) = None →
  (∀ q s, q `prefix_of` fs.parent_path (f k) → disk w !! q ≠ Some (fs.File s)) →
  fs.exists_ (disk w) (f k) = false →
  ∃ w1, create k v w = Returns true w1 ∧
        disk w1 !! f k = Some (fs.File (Serialize v "xml")) ∧
        disk w1 !! fs.parent_path (f k) = Some fs.Directory.
Proof.
  intros Hf Hne Hnone Hfile Hex.
  destruct (create_directories_succeeds (disk w) _ Hne Hfile) as (b & d' & Hc).
  pose proof (create_directories_new _ _ _ _ Hc Hnone) as ->.
  eexists. split; [by apply (create_fresh w f k v d')|]. simpl. split.
  - apply lookup_insert_eq.
  - rewrite lookup_insert_ne.
    + by apply (create_directories_is_directory _ _ _ _ Hc).
    + intros Heq. apply (f_equal length) in Heq.
      assert (f k ≠ []) as Hfk by (intros H0; by rewrite H0 in Hne).
      rewrite (parent_path_length _ Hfk) in Heq. lia.
Qed.

(** [create] on a key whose file is not there, when [create_directories]
    reports no new directory: nothing is written and [false] returned. *)
Lemma create_no_new_directory w f k v d' :
  m_filename_func (this w) = Some f →
  fs.exists_ (disk w) (f k) = false →
  fs.create_directories (disk w) (fs.parent_path (f k)) = inr (false, d') →
  create k v w = Returns false w.
Proof.
  intros Hf Hex Hc. unfold create.
  rewrite (bind_Returns _ _ _ _ _ (call_m_filename_func_set _ _ _ Hf)).
  unfold mbind at 1, M_bind at 1, fs_exists. rewrite Hex.
  rewrite (bind_Returns _ _ _ _ _ (fs_create_directories_Returns _ _ _ _ Hc)).
  simpl. rewrite (create_directories_nothing_new _ _ _ Hc).
  unfold mret, M_ret. by rewrite with_disk_id.
Qed.

(** The only way for [create] to return [true]. *)
Lemma create_true_inv w k v w1 :
  create k v w = Returns true w1 →
  ∃ f d',
    m_filename_func (this w) = Some f ∧
    fs.exists_ (disk w) (f k) = false ∧
    fs.create_directories (disk w) (fs.parent_path (f k)) = inr (true, d') ∧
    w1 = with_disk (<[f k := fs.File (Serialize v "xml")]> d')
           (with_m_cache (refreshed_early k v) w).
Proof.
  intros Hc.
  destruct (m_filename_func (this w)) as [f|] eqn:Hf; last first.
  { unfold create, mbind, M_bind, call_m_filename_func in Hc. by rewrite Hf in Hc. }
  destruct (fs.exists_ (disk w) (f k)) eqn:Hex.
  { by rewrite (create_duplicate _ _ _ _ Hf Hex) in Hc. }
  destruct (fs.create_directories (disk w) (fs.parent_path (f k)))
    as [e|[[] d']] eqn:Hd.
  - unfold create in Hc.
    rewrite (bind_Returns _ _ _ _ _ (call_m_filename_func_set _ _ _ Hf)) in Hc.
    unfold mbind, M_bind, fs_exists, fs_create_directories in Hc.
    by rewrite Hex, Hd in Hc.
  - exists f, d'. rewrite (create_fresh _ _ _ _ _ Hf Hex Hd) in Hc.
    by injection Hc as <-.
  - by rewrite (create_no_new_directory _ _ _ _ _ Hf Hex Hd) in Hc.
Qed.

(** The only way for [create] to return [false] is to change nothing. *)
Lemma create_false_inv w k v w1 :
  create k v w = Returns false w1 → w1 = w.
Proof.
  intros Hc.
  destruct (m_filename_func (this w)) as [f|] eqn:Hf; last first.
  { unfold create, mbind, M_bind, call_m_filename_func in Hc. by rewrite Hf in Hc. }
  destruct (fs.exists_ (disk w) (f k)) eqn:Hex.
  { rewrite (create_duplicate _ _ _ _ Hf Hex) in Hc. by injection Hc. }
  destruct (fs.create_directories (disk w) (fs.parent_path (f k)))
    as [e|[[] d']] eqn:Hd.
  - unfold create in Hc.
    rewrite (bind_Returns _ _ _ _ _ (call_m_filename_func_set _ _ _ Hf)) in Hc.
    unfold mbind, M_bind, fs_exists, fs_create_directories in Hc.
    by rewrite Hex, Hd in Hc.
  - by rewrite (create_fresh _ _ _ _ _ Hf Hex Hd) in Hc.
  - rewrite (create_no_new_directory _ _ _ _ _ Hf Hex Hd) in Hc. by injection Hc.
Qed.

(** Claim C1.  The claim says that [create] on a key whose file is not
    there fails only when the missing directories cannot be made.  The code
    takes the [false] of [create_directories] for a failure, but [false]
    only says that no directory was new: in a well-formed tree in which
    the directory of the key's file is already there, [create] returns
    [false] although nothing stands in the way, and writes nothing. *)
Theorem create_fails_in_existing_directory w f k v :
  m_filename_func (this w) = Some f →
  fs.well_formed (disk w) →
  fs.exists_ (disk w) (f k) = false →
  disk w !! fs.parent_path (f k) = Some fs.Directory →
  fs.can_open_for_writing (disk w) (f k) = true ∧
  create k v w = Returns false w.
Proof.
  intros Hf Hwf Hex Hdir.
  pose proof (create_directories_existing _ _ Hwf Hdir) as Hc. split.
  - destruct (can_open_after_create_directories _ _ _ _ Hex Hc) as (_ & _ & Ho). done.
  - by apply (create_no_new_directory w f k v (disk w)).
Qed.

(** Claim C6.  [create] on a key whose file already exists returns
    [false]; neither the table nor the disk changes. *)
Theorem create_existing_fails w f k v :
  m_filename_func (this w) = Some f →
  fs.exists_ (disk w) (f k) = true →
  create k v w = Returns false w.
Proof.
  intros Hf Hex. unfold create.
  rewrite (bind_Returns _ _ _ _ _ (call_m_filename_func_set _ _ _ Hf)).
  unfold mbind, M_bind, fs_exists. rewrite Hex. reflexivity.
Qed.

(** Claim C7.  When [create] returns [true] for a value that the
    serialization policy reads back as it wrote it, a [refresh] and a
    lookup of the key right afterwards both return, and the lookup yields
    that value. *)
Theorem create_refresh_lookup w k v w1 :
  create k v w = Returns true w1 →
  Deserialize (Serialize v "xml") inhabitant "xml" = v →
  ∃ w2 w3,
    refresh k w1 = Returns tt w2 ∧
    operator_index k w2 = Returns (Some v) w3 ∧
    (create k v ;; refresh k ;; operator_index k) w = Returns (Some v) w3.
Proof.
  intros Hc Hrt.
  destruct (create_true_inv _ _ _ _ Hc) as (f & d' & Hf & Hex & Hd & ->).
  destruct (can_open_after_create_directories _ _ _ _ Hex Hd) as (Hp & _ & _).
  set (w1 := with_disk _ _) in *.
  assert (m_filename_func (this w1) = Some f) as Hf1 by done.
  assert (fs.exists_ (disk w1) (f k) = true) as Hex1.
  { apply exists_true; [done|]. simpl. rewrite lookup_insert_eq. eauto. }
  assert (fs.file_content (disk w1) (f k) = Serialize v "xml") as Hfc
    by apply file_content_insert.
  assert (∃ w2 w3, refresh k w1 = Returns tt w2 ∧
                   operator_index k w2 = Returns (Some v) w3) as (w2 & w3 & Hr & Hl).
  { destruct (m_cache (this w1) !! k) as [p|] eqn:Hk.
    - eexists _, _. split; [apply (refresh_found w1 f k p Hf1 Hk Hex1)|].
      rewrite Hfc, Hrt. apply operator_index_hit. simpl. apply lookup_insert_eq.
    - eexists _, _. split; [apply (refresh_untouched w1 k Hk)|].
      rewrite (operator_index_load w1 f k Hf1 Hk Hex1). by rewrite Hfc, Hrt. }
  exists w2, w3. split_and!; [done|done|].
  rewrite (bind_Returns _ _ _ _ _ Hc). by rewrite (bind_Returns _ _ _ _ _ Hr).
Qed.

(** Claim C3 (amended).  For a key that holds a null entry, a [create]
    that returns [true] has refreshed the entry itself: a lookup right
    after it, with no [refresh] in between, returns a non-null pointer
    and changes nothing.  A [create] that returns [false] has changed
    nothing, and the lookup keeps returning null. *)
Theorem create_reloads_null_entry w k v b w1 :
  m_cache (this w) !! k = Some None →
  create k v w = Returns b w1 →
  if b
  then ∃ v', operator_index k w1 = Returns (Some v') w1
  else w1 = w ∧ operator_index k w1 = Returns None w1.
Proof.
  intros Hk Hc. destruct b.
  - destruct (create_true_inv _ _ _ _ Hc) as (f & d' & Hf & Hex & Hd & ->).
    eexists. apply operator_index_hit. simpl. unfold refreshed_early. rewrite Hk.
    apply lookup_insert_eq.
  - apply create_false_inv in Hc as ->. split; [done|].
    by apply operator_index_hit.
Qed.

(** ** [save] *)

Lemma writeToDisk_Returns w f k v :
  m_filename_func (this w) = Some f →
  writeToDisk k v w
  = Returns tt (with_disk (after_write (disk w) (f k) (Serialize v "xml")) w).
Proof.
  intros Hf. unfold writeToDisk.
  rewrite (bind_Returns _ _ _ _ _ (call_m_filename_func_set _ _ _ Hf)).
  unfold after_write, mbind, M_bind, ofstream_open.
  destruct (fs.can_open_for_writing (disk w) (f k)) eqn:Ho.
  - unfold ofstream_put, ofstream_close. simpl. f_equal.
    unfold with_disk. simpl. by rewrite !insert_insert_eq.
  - unfold ofstream_put, ofstream_close. simpl. by rewrite with_disk_id.
Qed.

Lemma save_loop w f l :
  m_filename_func (this w) = Some f →
  for_each l (λ e : Key * option Value,
                match e.2 with
                | Some v => writeToDisk e.1 v
                | None => mret tt
                end) w
  = Returns tt (with_disk (foldl (after_save_entry f) (disk w) l) w).
Proof.
  revert w. induction l as [|[k p] l IH]; intros w Hf.
  - simpl. unfold mret, M_ret. by rewrite with_disk_id.
  - cbn [for_each foldl].
    assert (match (k, p).2 with
            | Some v => writeToDisk (k, p).1 v
            | None => mret tt
            end w = Returns tt (with_disk (after_save_entry f (disk w) (k, p)) w))
      as Hbody.
    { unfold after_save_entry. simpl. destruct p as [v|].
      - by apply writeToDisk_Returns.
      - unfold mret, M_ret. by rewrite with_disk_id. }
    rewrite (bind_Returns _ _ _ _ _ Hbody). by rewrite IH.
Qed.

Lemma save_Returns w f :
  m_filename_func (this w) = Some f →
  save w = Returns tt
    (with_disk (foldl (after_save_entry f) (disk w)
                  (merge_sort value_comp (map_to_list (m_cache (this w))))) w).
Proof.
  intros Hf. unfold save, mbind, M_bind, m_cache_entries. by apply save_loop.
Qed.

Lemma elem_of_entries (m : gmap Key (option Value)) k p :
  (k, p) ∈ merge_sort value_comp (map_to_list m) ↔ m !! k = Some p.
Proof. by rewrite merge_sort_Permutation, elem_of_map_to_list. Qed.

Lemma after_write_same_directories d q s :
  fs.same_directories d (after_write d q s).
Proof.
  unfold after_write. destruct (fs.can_open_for_writing d q) eqn:Ho.
  - by apply same_directories_insert_file, can_open_for_writing_not_directory.
  - apply same_directories_refl.
Qed.

Lemma after_save_entry_same_directories f d e :
  fs.same_directories d (after_save_entry f d e).
Proof.
  unfold after_save_entry. destruct (e.2).
  - apply after_write_same_directories.
  - apply same_directories_refl.
Qed.

Lemma foldl_after_save_entry_same_directories f l d :
  fs.same_directories d (foldl (after_save_entry f) d l).
Proof.
  revert d. induction l as [|e l IH]; intros d; simpl.
  - apply same_directories_refl.
  - eapply same_directories_trans; [apply after_save_entry_same_directories|apply IH].
Qed.

(** Along the loop of [save] the paths that can be opened stay the same. *)
Lemma foldl_after_save_entry_if f l d (O : fs.path → bool) :
  (∀ q, O q = fs.can_open_for_writing d q) →
  foldl (after_save_entry f) d l = foldl (after_save_entry_if O f) d l.
Proof.
  revert d. induction l as [|e l IH]; intros d HO; [done|]. simpl.
  assert (after_save_entry f d e = after_save_entry_if O f d e) as Heq.
  { unfold after_save_entry, after_save_entry_if, after_write.
    destruct (e.2); [|done]. by rewrite HO. }
  rewrite <- Heq. apply IH. intros q. rewrite HO. symmetry.
  apply can_open_for_writing_same, after_save_entry_same_directories.
Qed.

Lemma foldl_after_save_entry_if_lookup (O : fs.path → bool) f l d q :
  foldl (after_save_entry_if O f) d l !! q
  = if O q then
      match last_write f l q with
      | Some s => Some (fs.File s)
      | None => d !! q
      end
    else d !! q.
Proof.
  revert d. induction l as [|[k p] l IH]; intros d.
  - simpl. by destruct (O q).
  - cbn [foldl last_write]. rewrite IH.
    unfold after_save_entry_if. simpl.
    destruct (O q) eqn:HOq, (last_write f l q) as [s|] eqn:Hl, p as [v|];
      try done.
    + destruct (decide (f k = q)) as [<-|Hne].
      * rewrite HOq. by rewrite lookup_insert_eq.
      * destruct (O (f k)); [by rewrite lookup_insert_ne|done].
    + destruct (O (f k)) eqn:HOk; [|done].
      apply lookup_insert_ne. intros <-. congruence.
    + destruct (O (f k)) eqn:HOk; [|done].
      apply lookup_insert_ne. intros <-. congruence.
Qed.

(** What [save] leaves at a path: what the last non-null entry filed
    there serializes to if the path can be opened, what was there before
    otherwise. *)
Lemma foldl_after_save_entry_lookup f l d q :
  foldl (after_save_entry f) d l !! q
  = if fs.can_open_for_writing d q then
      match last_write f l q with
      | Some s => Some (fs.File s)
      | None => d !! q
      end
    else d !! q.
Proof.
  rewrite (foldl_after_save_entry_if f l d (fs.can_open_for_writing d)) by done.
  apply foldl_after_save_entry_if_lookup.
Qed.

Lemma foldl_after_save_entry_twice f l d :
  foldl (after_save_entry f) (foldl (after_save_entry f) d l) l
  = foldl (after_save_entry f) d l.
Proof.
  apply map_eq. intros q. rewrite (foldl_after_save_entry_lookup f l (foldl _ d l)).
  rewrite (can_open_for_writing_same d) by apply foldl_after_save_entry_same_directories.
  rewrite (foldl_after_save_entry_lookup f l d).
  by destruct (fs.can_open_for_writing d q), (last_write f l q).
Qed.

Lemma last_write_Some_inv f l q s :
  last_write f l q = Some s →
  ∃ k v, (k, Some v) ∈ l ∧ f k = q ∧ s = Serialize v "xml".
Proof.
  induction l as [|[k p] l IH]; [done|]. simpl.
  destruct (last_write f l q) as [s'|].
  - intros [= <-]. destruct IH as (k' & v' & Hin & Hq & Hs); [done|].
    exists k', v'. split_and!; [by right|done|done].
  - destruct p as [v|]; [|done]. case_decide; [|done]. intros [= <-].
    exists k, v. split_and!; [by left|done|done].
Qed.

Lemma last_write_is_Some f l k v :
  (k, Some v) ∈ l → is_Some (last_write f l (f k)).
Proof.
  induction l as [|[k' p'] l IH]; [by intros ?%elem_of_nil|].
  intros [[= <- <-]|Hin]%elem_of_cons; simpl.
  - destruct (last_write f l (f k)); [eauto|]. rewrite decide_True by done. eauto.
  - destruct (IH Hin) as [s ->]. eauto.
Qed.

(** Claim C8.  With the filename function set, [save] returns and leaves
    the table as it is; a second [save] right after it returns with the
    very same disk.  A [save] leaves, at the file of a non-null entry that
    can be opened and that no other non-null entry shares, what that entry
    serializes to, whatever was there; paths that are not the file of a
    non-null entry are as before, so null entries write nothing. *)
Theorem save_twice w f :
  m_filename_func (this w) = Some f →
  ∃ w1,
    save w = Returns tt w1 ∧
    save w1 = Returns tt w1 ∧
    (save ;; save) w = Returns tt w1 ∧
    this w1 = this w ∧
    (∀ k v, m_cache (this w) !! k = Some (Some v) →
            fs.can_open_for_writing (disk w) (f k) = true →
            (∀ k' v', m_cache (this w) !! k' = Some (Some v') → f k' = f k → k' = k) →
            disk w1 !! f k = Some (fs.File (Serialize v "xml"))) ∧
    (∀ q, (∀ k v, m_cache (this w) !! k = Some (Some v) → f k ≠ q) →
          disk w1 !! q = disk w !! q).
Proof.
  intros Hf. pose proof (save_Returns w f Hf) as Hs.
  set (l := merge_sort value_comp (map_to_list (m_cache (this w)))) in *.
  set (w1 := with_disk _ w) in *.
  assert (save w1 = Returns tt w1) as Hs1.
  { rewrite (save_Returns w1 f Hf). f_equal. unfold w1, with_disk. simpl.
    fold l. by rewrite foldl_after_save_entry_twice. }
  exists w1. split_and!; [done|done| |done| |].
  - by rewrite (bind_Returns _ _ _ _ _ Hs).
  - intros k v Hk Ho Hinj. simpl. rewrite foldl_after_save_entry_lookup, Ho.
    assert ((k, Some v) ∈ l) as Hin by by apply elem_of_entries.
    destruct (last_write_is_Some f l k v Hin) as [s Hl]. rewrite Hl.
    destruct (last_write_Some_inv _ _ _ _ Hl) as (k' & v' & Hin' & Hq & ->).
    apply elem_of_entries in Hin'. pose proof (Hinj k' v' Hin' Hq) as ->.
    rewrite Hk in Hin'. by injection Hin' as ->.
  - intros q Hq. simpl. rewrite foldl_after_save_entry_lookup.
    destruct (fs.can_open_for_writing (disk w) q); [|done].
    destruct (last_write f l q) as [s|] eqn:Hl; [|done].
    destruct (last_write_Some_inv _ _ _ _ Hl) as (k' & v' & Hin' & Hq' & ->).
    apply elem_of_entries in Hin'. by destruct (Hq k' v' Hin').
Qed.

(** ** [remove], [callUpdateMemFn] and [callGetterMemFn] *)

(** Claim C2.  The claim describes a member function that can be called.
    The first statement of [remove] calls [LockEntry] without [this->],
    and [Cache] declares no [LockEntry]: the call has no callee and
    [remove] is not a member function that can be run, whatever the key
    and whether its storage exists or not.  [erase], which the body calls
    the same way, is found, because [Cache] declares it. *)
Theorem remove_callee_not_found k :
  remove k = None ∧
  unqualified_call (Key := Key) (Value := Value) "LockEntry" = None ∧
  unqualified_call (Key := Key) (Value := Value) "erase" = Some erase.
Proof. by split_and!. Qed.

(** Claim C10.  The claim describes two member functions that can be
    called.  [callUpdateMemFn] and [callGetterMemFn] start with the same
    unqualified [LockEntry(k)] as [remove]: neither has a callee for it,
    so neither returns anything or leaves an entry, for any key and any
    member function passed. *)
Theorem member_call_callee_not_found k :
  (∀ ptr_mem : Value → Value, callUpdateMemFn k ptr_mem = None) ∧
  (∀ (T : Type) (HT : Inhabited T) (ptr_mem : Value → T),
      callGetterMemFn k ptr_mem = None) ∧
  unqualified_call (Key := Key) (Value := Value) "LockEntry" = None.
Proof. by split_and!. Qed.

(** *** The statements that follow the lock

    What the three bodies do once the lock is written [this->LockEntry(k)],
    as in [operator[]], [create] and [refresh]. *)

(** The steps of [remove_locked] on the disk, once the directory was
    found. *)
Lemma remove_locked_run w f k :
  m_filename_func (this w) = Some f →
  let directory := fs.parent_path (f k) in
  let trash_directory := fs.parent_path directory ++ ["trash"] ++ directory in
  remove_locked k w
  = if fs.exists_ (disk w) directory then
      match (if fs.exists_ (disk w) (fs.parent_path trash_directory)
             then inr (false, disk w)
             else fs.create_directories (disk w) (fs.parent_path trash_directory))
      with
      | inl e => Throws (filesystem_error e)
      | inr (_, d1) =>
          match fs.rename d1 directory trash_directory with
          | inl e => Throws (filesystem_error e)
          | inr d2 => Returns true (with_m_cache (delete k) (with_disk d2 w))
          end
      end
    else Returns false w.
Proof.
  intros Hf directory trash_directory. unfold remove_locked.
  rewrite (bind_Returns _ _ _ _ _ (call_m_filename_func_set _ _ _ Hf)).
  fold directory. fold trash_directory.
  unfold mbind at 1, M_bind at 1, fs_exists.
  destruct (fs.exists_ (disk w) directory); [|done]. cbn [negb].
  unfold mbind at 1, M_bind at 1.
  destruct (fs.exists_ (disk w) (fs.parent_path trash_directory)); cbn [negb].
  - unfold mbind, M_bind, mret, M_ret, fs_rename.
    destruct (fs.rename (disk w) directory trash_directory) as [e|d2]; [done|].
    by rewrite erase_Returns.
  - unfold mbind, M_bind, mret, M_ret, fs_create_directories, fs_rename.
    destruct (fs.create_directories (disk w) (fs.parent_path trash_directory))
      as [e|[b d1]]; [done|]. simpl.
    destruct (fs.rename d1 directory trash_directory) as [e|d2]; [done|].
    by rewrite erase_Returns.
Qed.

(** [remove_locked] looks for the directory that holds the key's file,
    not for the file.  When that directory is not there it returns
    [false] and changes nothing.  When it is there, [remove_locked]
    either throws the error of [create_directories] or [rename], or
    returns [true]: then everything at or below the directory is found
    at or below the trash directory instead, nothing is left at or below
    the directory, the key has no entry in the table, and a lookup of the
    key returns null.  It does return [true] when the trash directory
    is not there yet, no regular file is in the way of its parent, and the
    directory is not above its own trash directory. *)
Lemma remove_locked_moves_directory w f k :
  m_filename_func (this w) = Some f →
  let directory := fs.parent_path (f k) in
  let trash_directory := fs.parent_path directory ++ ["trash"] ++ directory in
  (fs.exists_ (disk w) directory = false → remove_locked k w = Returns false w) ∧
  (fs.exists_ (disk w) directory = true →
     (∃ e, remove_locked k w = Throws (filesystem_error e)) ∨
     (∃ w', remove_locked k w = Returns true w' ∧
            m_cache (this w') = delete k (m_cache (this w)) ∧
            (∀ rest, disk w' !! (trash_directory ++ rest)
                     = disk w !! (directory ++ rest)) ∧
            (∀ rest, disk w' !! (directory ++ rest) = None) ∧
            operator_index k w' = Returns None (with_m_cache (insert k None) w'))) ∧
  (fs.exists_ (disk w) directory = true →
   disk w !! trash_directory = None →
   (∀ q s, q `prefix_of` fs.parent_path trash_directory →
           disk w !! q ≠ Some (fs.File s)) →
   ¬ directory `prefix_of` trash_directory →
   ∃ w', remove_locked k w = Returns true w').
Proof.
  intros Hf directory trash_directory.
  pose proof (remove_locked_run w f k Hf) as Hrun. cbv zeta in Hrun.
  fold directory in Hrun. fold trash_directory in Hrun.
  assert (length directory < length trash_directory) as Hlen.
  { unfold trash_directory. rewrite !length_app. simpl. lia. }
  assert (trash_directory ≠ []) as Htne by (intros Heq; rewrite Heq in Hlen; simpl in Hlen; lia).
  assert (directory ≠ trash_directory) as Hdt by (intros Heq; rewrite Heq in Hlen; lia).
  split_and!.
  - intros Hex. by rewrite Hrun, Hex.
  - intros Hex. rewrite Hrun, Hex.
    destruct (exists_true_inv _ _ Hex) as [Hdne [n Hn]].
    set (r1 := if fs.exists_ (disk w) (fs.parent_path trash_directory)
               then inr (false, disk w)
               else fs.create_directories (disk w) (fs.parent_path trash_directory)).
    assert (∀ b d1, r1 = inr (b, d1) →
              ∀ q, ¬ q `prefix_of` fs.parent_path trash_directory →
                   d1 !! q = disk w !! q) as Hd1.
    { intros b d1 Hr1 q Hq. unfold r1 in Hr1.
      destruct (fs.exists_ (disk w) (fs.parent_path trash_directory)).
      - by injection Hr1 as <- <-.
      - by apply (create_directories_elsewhere _ _ _ _ q Hr1). }
    destruct r1 as [e|[b d1]] eqn:Hr1; [left; eauto|].
    destruct (fs.rename d1 directory trash_directory) as [e|d2] eqn:Hren;
      [left; eauto|].
    right. destruct (rename_inr_inv _ _ _ _ Hren Hdt) as [-> Hpre].
    assert (∀ rest, ¬ trash_directory `prefix_of` directory ++ rest) as Hnot.
    { intros rest Ht.
      destruct (prefix_weak_total directory trash_directory (directory ++ rest))
        as [?|Htd]; [by apply prefix_app_r|done|done|].
      apply prefix_length in Htd. lia. }
    assert (∀ rest, fs.move d1 directory trash_directory !! (directory ++ rest) = None)
      as Hgone.
    { intros rest. apply move_lookup_old; [done|by apply prefix_app_r]. }
    eexists. split; [done|]. split_and!; [done| |done|].
    + intros rest. simpl. rewrite move_lookup_new by done.
      apply (Hd1 b d1 eq_refl). intros Hq. apply Hpre.
      etrans; [|apply parent_path_prefix].
      etrans; [|apply Hq]. by apply prefix_app_r.
    + apply operator_index_miss with f; [done|simpl; apply lookup_delete_eq|].
      simpl. apply exists_none.
      assert (f k ≠ []) as Hne.
      { intros Heq. apply Hdne. unfold directory. by rewrite Heq. }
      destruct (parent_path_spec _ Hne) as [c Hc]. rewrite Hc. apply Hgone.
  - intros Hex Hfree Hfile Hpre. rewrite Hrun, Hex.
    destruct (exists_true_inv _ _ Hex) as [Hdne [n Hn]].
    assert (fs.parent_path trash_directory ≠ []) as Hpne.
    { intros Heq. apply (f_equal length) in Heq.
      pose proof (parent_path_length _ Htne) as Hl.
      destruct directory; [done|]. simpl in *. lia. }
    assert (¬ directory `prefix_of` fs.parent_path trash_directory) as Hpre'.
    { intros Hq. apply Hpre. etrans; [apply Hq|apply parent_path_prefix]. }
    assert (length (fs.parent_path trash_directory) < length trash_directory) as Hlt.
    { rewrite (parent_path_length _ Htne). lia. }
    destruct (fs.exists_ (disk w) (fs.parent_path trash_directory)) eqn:Hext.
    + destruct (exists_true_inv _ _ Hext) as [_ [[s|] Hnp]].
      { by destruct (Hfile (fs.parent_path trash_directory) s). }
      rewrite (rename_onto_free _ _ _ n) by done. eauto.
    + destruct (create_directories_succeeds (disk w) _ Hpne Hfile)
        as (b & d1 & Hc). rewrite Hc.
      rewrite (rename_onto_free d1 _ _ n); [eauto| |done|done| |].
      * by rewrite (create_directories_elsewhere _ _ _ _ _ Hc).
      * by apply (create_directories_is_directory _ _ _ _ Hc).
      * by rewrite (create_directories_longer _ _ _ _ _ Hc).
Qed.

(** For a key with no entry in the table and no file on disk,
    [callGetterMemFn_locked] returns [false] paired with a
    default-constructed value and [callUpdateMemFn_locked] returns
    [false]; each leaves a null entry for the key in the table. *)
Lemma member_call_locked_miss_memoized w f k :
  m_filename_func (this w) = Some f →
  m_cache (this w) !! k = None →
  fs.exists_ (disk w) (f k) = false →
  (∀ (T : Type) (HT : Inhabited T) (ptr_mem : Value → T),
      callGetterMemFn_locked k ptr_mem w
      = Returns (false, inhabitant) (with_m_cache (insert k None) w)) ∧
  (∀ ptr_mem : Value → Value,
      callUpdateMemFn_locked k ptr_mem w
      = Returns false (with_m_cache (insert k None) w)) ∧
  m_cache (this (with_m_cache (insert k None) w)) !! k = Some None.
Proof.
  intros Hf Hk Hex. split_and!.
  - intros T HT g. unfold callGetterMemFn_locked.
    by rewrite (bind_Returns _ _ _ _ _ (operator_index_miss _ _ _ Hf Hk Hex)).
  - intros g. unfold callUpdateMemFn_locked.
    by rewrite (bind_Returns _ _ _ _ _ (operator_index_miss _ _ _ Hf Hk Hex)).
  - simpl. apply lookup_insert_eq.
Qed.

(** ** [clear] *)

(** What [save] followed by [forceClear] does: the disk is the one [save]
    leaves and the table is empty. *)
Lemma save_forceClear w f :
  m_filename_func (this w) = Some f →
  ∃ w1 w2,
    save w = Returns tt w1 ∧
    (save ;; forceClear) w = Returns tt w2 ∧
    disk w2 = disk w1 ∧
    m_cache (this w2) = ∅.
Proof.
  intros Hf. pose proof (save_Returns w f Hf) as Hs.
  eexists _, (with_m_cache (λ _, ∅) _). split_and!; [exact Hs| |done|done].
  by rewrite (bind_Returns _ _ _ _ _ Hs).
Qed.

(** Claim C4.  The claim describes [save] followed by [forceClear].  The
    body of [clear] calls [force_clear] instead, a name that neither
    [Cache] nor a policy base declares: [clear] has no callee for its
    second call and is not a member function that can be run, while
    [forceClear], the member it was meant to call, is found under its own
    name. *)
Theorem clear_callee_not_found :
  clear = None ∧ this_call "force_clear" = None ∧
  this_call "forceClear" = Some forceClear.
Proof. by split_and!. Qed.

(** Claim C9.  [erase] always returns; it removes the entry of its key
    from the table and nothing else: the disk, the filename function and
    the entries of all other keys stay.  A lookup of the key afterwards
    goes back to the disk and returns what the key's file holds there. *)
Theorem erase_memory_only w k :
  ∃ w',
    erase k w = Returns tt w' ∧
    disk w' = disk w ∧
    m_filename_func (this w') = m_filename_func (this w) ∧
    m_cache (this w') = delete k (m_cache (this w)) ∧
    (∀ k', k' ≠ k → m_cache (this w') !! k' = m_cache (this w) !! k') ∧
    (∀ f, m_filename_func (this w) = Some f →
          fs.exists_ (disk w) (f k) = true →
          ∃ w'', operator_index k w'
                 = Returns (Some (Deserialize (fs.file_content (disk w) (f k))
                                              inhabitant "xml")) w''
                 ∧ disk w'' = disk w).
Proof.
  exists (with_m_cache (delete k) w). split; [apply erase_Returns|].
  split_and!; try done.
  - intros k' Hne. simpl. by rewrite lookup_delete_ne.
  - intros f Hf Hex. eexists. split.
    + apply (operator_index_load (with_m_cache (delete k) w) f k); try done.
      simpl. apply lookup_delete_eq.
    + done.
Qed.

End Cache_facts.

(** * The theorems at work on the demonstration cache *)

Section Demo_facts.
Import Demo.
Local Open Scope Z_scope.

Ltac run := vm_compute; reflexivity.

(** The flat layout after [create(1, "one")]: the directory of every key
    is there, and [create(2, "two")] returns [false]. *)
Lemma create_fails_in_existing_directory_witness :
  m_filename_func (this flat_w_created) = Some flat_filename ∧
  fs.well_formed (disk flat_w_created) ∧
  fs.exists_ (disk flat_w_created) (flat_filename 2) = false ∧
  disk flat_w_created !! fs.parent_path (flat_filename 2) = Some fs.Directory ∧
  fs.can_open_for_writing (disk flat_w_created) (flat_filename 2) = true ∧
  create 2 "two" flat_w_created = Returns false flat_w_created.
Proof.
  assert (fs.well_formed (disk flat_w_created)) as Hwf.
  { apply (bool_decide_unpack _). vm_compute. exact I. }
  assert (fs.exists_ (disk flat_w_created) (flat_filename 2) = false) as Hex by run.
  assert (disk flat_w_created !! fs.parent_path (flat_filename 2)
          = Some fs.Directory) as Hdir by run.
  split_and!; [reflexivity|exact Hwf|exact Hex|exact Hdir|..];
    apply (create_fails_in_existing_directory flat_w_created flat_filename 2 "two"
             eq_refl Hwf Hex Hdir).
Defined.

(** [remove_locked] at work.  In the flat layout, key 2 has no file and
    a null entry; [remove_locked 2] returns [true], erases the entry and
    carries the file of key 1 away.  And with the directory-per-key
    layout, a key removed, created again and removed again has its file
    in place, yet the second [remove_locked] throws. *)
Lemma remove_locked_examples :
  (fs.exists_ (disk flat_w_missed) (flat_filename 2) = false ∧
   m_cache (this flat_w_missed) !! 2 = Some None ∧
   disk flat_w_missed !! flat_filename 1 = Some (fs.File "one") ∧
   ∃ w', remove_locked 2 flat_w_missed = Returns true w' ∧
         m_cache (this w') !! 2 = None ∧
         disk w' !! flat_filename 1 = None) ∧
  (let w := after (remove_locked 1 ;; create 1 "uno") w_created in
   fs.exists_ (disk w) (filename 1) = true ∧
   remove_locked 1 w = Throws (filesystem_error fs.directory_not_empty)).
Proof.
  split; [split_and!; [run|run|run|]|split; run].
  exists (after (remove_locked 2) flat_w_missed). split_and!; run.
Qed.

(** Against C3 as stated.  Key 1 holds a null entry; [create(1, "one")]
    returns [true], and the lookup that follows, with no [refresh] in
    between, does not report absence: it returns a non-null pointer, here
    to an empty string. *)
Lemma create_keeps_absence_counterexample :
  m_cache (this w_missed) !! 1 = Some None ∧
  ∃ w1, create (filebuf := buffered) 1 "one" w_missed = Returns true w1 ∧
        operator_index 1 w1 = Returns (Some "") w1.
Proof.
  split; [run|].
  exists (after (create (filebuf := buffered) 1 "one") w_missed). split; run.
Qed.

Lemma create_reloads_null_entry_witness :
  m_cache (this w_missed) !! 1 = Some None ∧
  create 1 "one" w_missed = Returns true (after (create 1 "one") w_missed) ∧
  ∃ v', operator_index 1 (after (create 1 "one") w_missed)
        = Returns (Some v') (after (create 1 "one") w_missed).
Proof.
  assert (m_cache (this w_missed) !! 1 = Some None) as Hk by run.
  assert (create 1 "one" w_missed
          = Returns true (after (create 1 "one") w_missed)) as Hc by run.
  split_and!; [exact Hk|exact Hc|].
  exact (create_reloads_null_entry w_missed 1 "one" true _ Hk Hc).
Defined.

Lemma operator_index_lookup_witness :
  m_filename_func (this w_created) = Some filename ∧
  ∃ w', operator_index 1 w_created = Returns (Some "one") w' ∧
        disk w' = disk w_created ∧
        m_cache (this w') = <[1 := Some "one"]> (m_cache (this w_created)).
Proof.
  split; [reflexivity|].
  destruct (operator_index_lookup w_created filename 1 eq_refl)
    as (r & w' & Hr & Hd & _ & Hload & _).
  destruct Hload as [-> Hm]; [run|run|].
  exists w'. split_and!; [exact Hr|exact Hd|exact Hm].
Defined.

Lemma create_existing_fails_witness :
  m_filename_func (this w_created) = Some filename ∧
  fs.exists_ (disk w_created) (filename 1) = true ∧
  create 1 "uno" w_created = Returns false w_created.
Proof.
  assert (fs.exists_ (disk w_created) (filename 1) = true) as Hex by run.
  split_and!; [reflexivity|exact Hex|].
  exact (create_existing_fails w_created filename 1 "uno" eq_refl Hex).
Defined.

(** Key 1 holds a null entry when it is created. *)
Lemma create_refresh_lookup_witness :
  create 1 "one" w_missed = Returns true (after (create 1 "one") w_missed) ∧
  Deserialize (Serialize "one" "xml") inhabitant "xml" = "one" ∧
  ∃ w3, (create 1 "one" ;; refresh 1 ;; operator_index 1) w_missed
        = Returns (Some "one") w3.
Proof.
  assert (create 1 "one" w_missed
          = Returns true (after (create 1 "one") w_missed)) as Hc by run.
  split_and!; [exact Hc|reflexivity|].
  destruct (create_refresh_lookup w_missed 1 "one" _ Hc eq_refl)
    as (w2 & w3 & _ & _ & Hall).
  exists w3. exact Hall.
Defined.

Lemma save_twice_witness :
  m_filename_func (this w_changed) = Some filename ∧
  disk w_changed !! filename 1 = Some (fs.File "one") ∧
  ∃ w1, save w_changed = Returns tt w1 ∧
        (save ;; save) w_changed = Returns tt w1 ∧
        disk w1 !! filename 1 = Some (fs.File "one!").
Proof.
  split_and!; [reflexivity|run|].
  destruct (save_twice w_changed filename eq_refl)
    as (w1 & Hs & _ & Hss & _ & Hwritten & _).
  exists w1. split_and!; [exact Hs|exact Hss|].
  apply (Hwritten 1 "one!"); [run|run|].
  intros k' v' _ [= Hk']. exact (inj pretty _ _ Hk').
Defined.

Lemma erase_memory_only_witness :
  m_cache (this w_changed) !! 1 = Some (Some "one!") ∧
  ∃ w' w'', erase 1 w_changed = Returns tt w' ∧
            disk w' = disk w_changed ∧
            operator_index 1 w' = Returns (Some "one") w''.
Proof.
  split; [run|].
  destruct (erase_memory_only w_changed 1) as (w' & He & Hd & _ & _ & _ & Hl).
  destruct (Hl filename eq_refl) as (w'' & Hw'' & _); [run|].
  exists w', w''. split_and!; [exact He|exact Hd|exact Hw''].
Defined.

End Demo_facts.

(** * Further facts about the directory tree *)

Section fs_usage.
Implicit Types (d : fs.filesystem) (p q t : fs.path) (n : fs.node).

Lemma create_directories_from_lookup_cases base rest d b d' t :
  fs.create_directories_from base rest d = inr (b, d') →
  d' !! t = d !! t ∨ (d !! t = None ∧ d' !! t = Some fs.Directory).
Proof.
  revert base d b d'. induction rest as [|c rest IH]; intros base d b d' Hc.
  - injection Hc as <- <-. by left.
  - simpl in Hc. destruct (d !! (base ++ [c])) as [[s|]|] eqn:Hbc; [done| |].
    + by apply (IH _ _ _ _ Hc).
    + destruct (fs.create_directories_from (base ++ [c]) rest
                  (<[base ++ [c] := fs.Directory]> d)) as [e|[b0 d0]] eqn:Hrec;
        [done|]. injection Hc as <- <-.
      destruct (decide (base ++ [c] = t)) as [<-|Hne].
      * right. split; [done|].
        destruct (IH _ _ _ _ Hrec) as [Hsame|[Hnone _]].
        -- by rewrite Hsame, lookup_insert_eq.
        -- by rewrite lookup_insert_eq in Hnone.
      * destruct (IH _ _ _ _ Hrec) as [Hsame|[Hnone Hdir]].
        -- left. by rewrite Hsame, lookup_insert_ne.
        -- right. by rewrite lookup_insert_ne in Hnone.
Qed.

(** [create_directories] only adds directories where nothing was. *)
Lemma create_directories_lookup_cases d p b d' t :
  fs.create_directories d p = inr (b, d') →
  d' !! t = d !! t ∨ (d !! t = None ∧ d' !! t = Some fs.Directory).
Proof.
  intros Hc. pose proof (create_directories_nonempty _ _ _ Hc) as Hp.
  rewrite create_directories_from_eq in Hc by done.
  by apply (create_directories_from_lookup_cases [] p d b d').
Qed.

Lemma create_directories_preserves d p b d' t n :
  fs.create_directories d p = inr (b, d') → d !! t = Some n → d' !! t = Some n.
Proof.
  intros Hc Ht. destruct (create_directories_lookup_cases _ _ _ _ t Hc)
    as [->|[Hnone _]]; [done|congruence].
Qed.

Lemma can_open_for_writing_nonempty d p :
  fs.can_open_for_writing d p = true → p ≠ [].
Proof. by destruct p. Qed.

Lemma create_directories_from_blocked base r1 r2 d s :
  r1 ≠ [] → d !! (base ++ r1) = Some (fs.File s) →
  ∃ e, fs.create_directories_from base (r1 ++ r2) d = inl e.
Proof.
  revert base d. induction r1 as [|c r1 IH]; intros base d Hne Hfile; [done|].
  simpl. rewrite (cons_middle c base r1), app_assoc in Hfile.
  destruct (decide (r1 = [])) as [->|Hr1].
  { rewrite app_nil_r in Hfile. rewrite Hfile. eauto. }
  destruct (d !! (base ++ [c])) as [[s'|]|] eqn:Hbc; [eauto| |].
  - by apply IH.
  - destruct (IH (base ++ [c]) (<[base ++ [c] := fs.Directory]> d) Hr1) as [e ->];
      [|eauto].
    rewrite lookup_insert_ne; [done|]. intros Heq. apply Hr1.
    apply (f_equal length) in Heq. rewrite !length_app in Heq. simpl in Heq.
    apply length_zero_iff_nil. lia.
Qed.

(** [create_directories] fails when a regular file is in the way. *)
Lemma create_directories_blocked d p q s :
  q ≠ [] → q `prefix_of` p → d !! q = Some (fs.File s) →
  ∃ e, fs.create_directories d p = inl e.
Proof.
  intros Hq [r ->] Hfile. rewrite create_directories_from_eq by (by destruct q).
  by apply (create_directories_from_blocked [] q r d s).
Qed.

Lemma rename_inr_parent d old new d' :
  fs.rename d old new = inr d' → old ≠ new →
  fs.is_directory_or_start d (fs.parent_path new) = true.
Proof.
  unfold fs.rename. intros Hr Hne. destruct (d !! old) as [n|]; [|done].
  rewrite decide_False in Hr by done.
  by destruct (fs.is_directory_or_start d (fs.parent_path new)).
Qed.

Lemma well_formed_no_empty_path d : fs.well_formed d → d !! [] = None.
Proof.
  intros Hwf. destruct (d !! []) as [n|] eqn:Hd; [|done].
  by destruct (Hwf _ _ Hd).
Qed.

End fs_usage.

(** * Further properties of [mrr::Cache] *)

Section Cache_usage.
Context {Key : Type} `{Countable Key} `{!Less Key}.
Context {Value : Type} `{!Inhabited Value} `{!SerializationPolicy Value}.
Context {filebuf : Filebuf}.
Implicit Types (w : World Key Value) (k : Key) (v : Value).
Implicit Types (f : Key → fs.path) (p r : option Value).

(** What a lookup that returns has done: nothing to the disk and to the
    filename function, and the key now has the returned pointer as its
    entry; the other entries are as before. *)
Lemma operator_index_inv w k r w1 :
  operator_index k w = Returns r w1 →
  disk w1 = disk w ∧
  m_filename_func (this w1) = m_filename_func (this w) ∧
  m_cache (this w1) = <[k := r]> (m_cache (this w)) ∧
  (m_cache (this w) !! k = Some r ∨ m_cache (this w) !! k = None).
Proof.
  intros Hl. destruct (m_cache (this w) !! k) as [p|] eqn:Hk.
  - rewrite (operator_index_hit _ _ _ Hk) in Hl. injection Hl as -> ->.
    split_and!; [done|done| |by left]. by rewrite insert_id.
  - destruct (m_filename_func (this w)) as [f|] eqn:Hf; last first.
    { unfold operator_index, loadFromDisk, call_m_filename_func, m_cache_find,
        mbind, M_bind in Hl. by rewrite Hk, Hf in Hl. }
    destruct (fs.exists_ (disk w) (f k)) eqn:Hex.
    + rewrite (operator_index_load _ _ _ Hf Hk Hex) in Hl.
      injection Hl as <- <-. split_and!; [done|done|done|by right].
    + rewrite (operator_index_miss _ _ _ Hf Hk Hex) in Hl.
      injection Hl as <- <-. split_and!; [done|done|done|by right].
Qed.

(** After a [create] that returned [true] for a key without entry, the
    lookup of the key reads back what was written. *)
Lemma lookup_after_create w k v w1 :
  m_cache (this w) !! k = None →
  create k v w = Returns true w1 →
  m_cache (this w1) = m_cache (this w) ∧
  ∃ w2, operator_index k w1
        = Returns (Some (Deserialize (Serialize v "xml") inhabitant "xml")) w2.
Proof.
  intros Hk Hc.
  destruct (create_true_inv _ _ _ _ Hc) as (f & d' & Hf & Hex & Hd & ->).
  destruct (can_open_after_create_directories _ _ _ _ Hex Hd) as (Hp & _ & _).
  assert (refreshed_early k v (m_cache (this w)) = m_cache (this w)) as Hsame.
  { unfold refreshed_early. by rewrite Hk. }
  split; [exact Hsame|].
  set (w1 := with_disk _ _).
  assert (m_cache (this w1) !! k = None) as Hk1 by (simpl; by rewrite Hsame).
  assert (fs.exists_ (disk w1) (f k) = true) as Hex1.
  { apply exists_true; [done|]. simpl. rewrite lookup_insert_eq. eauto. }
  eexists. rewrite (operator_index_load w1 f k Hf Hk1 Hex1).
  unfold w1 at 1. simpl disk. by rewrite file_content_insert.
Qed.

(** X1.  [create] does not load: when the key has no entry and [create]
    returns [true], the table is what it was, and the first lookup of the
    key reads back what [create] wrote. *)
Theorem create_leaves_table w k v w1 :
  m_cache (this w) !! k = None →
  create k v w = Returns true w1 →
  m_cache (this w1) = m_cache (this w) ∧
  ∃ w2, operator_index k w1
        = Returns (Some (Deserialize (Serialize v "xml") inhabitant "xml")) w2
        ∧ disk w2 = disk w1.
Proof.
  intros Hk Hc. destruct (lookup_after_create _ _ _ _ Hk Hc) as (Hm & w2 & Hl).
  split; [done|]. exists w2. split; [done|].
  by destruct (operator_index_inv _ _ _ _ Hl) as (Hd & _).
Qed.

(** X2.  What a lookup has returned it keeps returning, whatever becomes
    of the disk: the entry it left, null or not, answers every later
    lookup, and the world is not touched again. *)
Theorem operator_index_memoizes w k r w1 :
  operator_index k w = Returns r w1 →
  ∀ d', operator_index k (with_disk d' w1) = Returns r (with_disk d' w1).
Proof.
  intros Hl d'. destruct (operator_index_inv _ _ _ _ Hl) as (_ & _ & Hm & _).
  apply operator_index_hit. simpl. rewrite Hm. apply lookup_insert_eq.
Qed.

(** X3.  Before [setFilenameFunction], [create] throws
    [std::bad_function_call], and so does the lookup of a key that has no
    entry; nothing is returned and nothing stored. *)
Theorem unset_filename_function_throws w k v :
  m_filename_func (this w) = None →
  create k v w = Throws bad_function_call ∧
  (m_cache (this w) !! k = None →
     operator_index k w = Throws bad_function_call).
Proof.
  intros Hf.
  assert (∀ A (c : fs.path → M (World Key Value) A),
            (call_m_filename_func k ≫= c) w = Throws bad_function_call) as Hcall.
  { intros A c. apply bind_Throws. unfold call_m_filename_func. by rewrite Hf. }
  split; [apply Hcall|]. intros Hk.
  unfold operator_index, mbind at 1, M_bind at 1, m_cache_find. rewrite Hk.
  apply bind_Throws. apply Hcall.
Qed.

(** X5.  [refresh] throws away what the entry holds in memory: for a
    key with an entry, whatever it points to, and whose file exists, a
    [refresh] and a lookup yield what the file holds and leave the
    disk. *)
Theorem refresh_discards_changes w f k p :
  m_filename_func (this w) = Some f →
  fs.exists_ (disk w) (f k) = true →
  m_cache (this w) !! k = Some p →
  ∃ w2, (refresh k ;; operator_index k) w
        = Returns (Some (Deserialize (fs.file_content (disk w) (f k))
                                     inhabitant "xml")) w2
        ∧ disk w2 = disk w.
Proof.
  intros Hf Hex Hk.
  eexists. rewrite (bind_Returns _ _ _ _ _ (refresh_found w f k _ Hf Hk Hex)).
  split; [apply operator_index_hit; simpl; apply lookup_insert_eq|done].
Qed.

(** X6.  [forceClear] loses what the table holds and was not saved: for
    a key whose file exists, whatever its entry, [forceClear] and a lookup
    yield what the file holds, leave the disk, and the key's entry is the
    only one in the table. *)
Theorem forceClear_loses_changes w f k :
  m_filename_func (this w) = Some f →
  fs.exists_ (disk w) (f k) = true →
  ∃ w2, (forceClear ;; operator_index k) w
        = Returns (Some (Deserialize (fs.file_content (disk w) (f k))
                                     inhabitant "xml")) w2
        ∧ disk w2 = disk w
        ∧ m_cache (this w2) = {[ k := Some (Deserialize (fs.file_content (disk w) (f k))
                                                      inhabitant "xml") ]}.
Proof.
  intros Hf Hex.
  set (wc := with_m_cache (λ _, ∅) w).
  assert (forceClear w = Returns tt wc) as Hfc by done.
  assert (m_cache (this wc) !! k = None) as Hkc by (simpl; apply lookup_empty).
  eexists. rewrite (bind_Returns _ _ _ _ _ Hfc).
  rewrite (operator_index_load wc f k Hf Hkc Hex).
  split_and!; [done|done|]. simpl. by rewrite insert_empty.
Qed.

(** X7.  [refresh] twice is [refresh] once: with the filename function
    set, [refresh] returns, leaves the disk, and a second [refresh] right
    after it changes nothing. *)
Theorem refresh_twice w f k :
  m_filename_func (this w) = Some f →
  ∃ w1, refresh k w = Returns tt w1 ∧
        disk w1 = disk w ∧
        refresh k w1 = Returns tt w1.
Proof.
  intros Hf. destruct (m_cache (this w) !! k) as [p|] eqn:Hk.
  - destruct (fs.exists_ (disk w) (f k)) eqn:Hex.
    + eexists. split; [apply (refresh_found w f k p Hf Hk Hex)|]. split; [done|].
      set (w1 := with_m_cache _ w).
      rewrite (refresh_found w1 f k _ Hf (lookup_insert_eq _ _ _) Hex).
      f_equal. unfold w1, with_m_cache. simpl. by rewrite insert_insert_eq.
    + eexists. split; [apply (refresh_missing w f k p Hf Hk Hex)|]. split; [done|].
      set (w1 := with_m_cache _ w).
      rewrite (refresh_missing w1 f k _ Hf (lookup_insert_eq _ _ _) Hex).
      f_equal. unfold w1, with_m_cache. simpl. by rewrite insert_insert_eq.
  - exists w. by rewrite (refresh_untouched w k Hk).
Qed.

(** ** [save], [forceClear] and the disk *)

Lemma save_entry_written w f k v :
  m_filename_func (this w) = Some f →
  m_cache (this w) !! k = Some (Some v) →
  fs.can_open_for_writing (disk w) (f k) = true →
  (∀ k' v', m_cache (this w) !! k' = Some (Some v') → f k' = f k → k' = k) →
  ∃ w1, save w = Returns tt w1 ∧ this w1 = this w ∧
        disk w1 !! f k = Some (fs.File (Serialize v "xml")).
Proof.
  intros Hf Hk Ho Hinj. eexists. split; [apply (save_Returns w f Hf)|].
  split; [done|]. simpl. rewrite foldl_after_save_entry_lookup, Ho.
  set (l := merge_sort value_comp (map_to_list (m_cache (this w)))).
  assert ((k, Some v) ∈ l) as Hin by by apply elem_of_entries.
  destruct (last_write_is_Some f l k v Hin) as [s Hl]. rewrite Hl.
  destruct (last_write_Some_inv _ _ _ _ Hl) as (k' & v' & Hin' & Hq & ->).
  apply elem_of_entries in Hin'. pose proof (Hinj k' v' Hin' Hq) as ->.
  rewrite Hk in Hin'. by injection Hin' as ->.
Qed.

(** X8.  Write-behind, end to end: a value that an entry holds in
    memory, once [save]d, is what a cache that starts from an empty table
    reads back.  The key's file has to be one that can be opened and that
    no other non-null entry shares, and the policy has to read the value
    back as it wrote it. *)
Theorem saved_entry_reloads w f k v :
  m_filename_func (this w) = Some f →
  m_cache (this w) !! k = Some (Some v) →
  fs.can_open_for_writing (disk w) (f k) = true →
  (∀ k' v', m_cache (this w) !! k' = Some (Some v') → f k' = f k → k' = k) →
  Deserialize (Serialize v "xml") inhabitant "xml" = v →
  ∃ w1, (save ;; forceClear ;; operator_index k) w = Returns (Some v) w1 ∧
        disk w1 !! f k = Some (fs.File (Serialize v "xml")).
Proof.
  intros Hf Hk Ho Hinj Hrt.
  destruct (save_entry_written w f k v Hf Hk Ho Hinj) as (wb & Hs & Hthis & Hfile).
  set (wc := with_m_cache (λ _, ∅) wb).
  assert (forceClear wb = Returns tt wc) as Hfc by done.
  assert (m_filename_func (this wc) = Some f) as Hfc1 by (simpl; by rewrite Hthis).
  assert (fs.exists_ (disk wc) (f k) = true) as Hexc.
  { apply exists_true; [by apply (can_open_for_writing_nonempty (disk w))|].
    simpl. rewrite Hfile. eauto. }
  assert (m_cache (this wc) !! k = None) as Hkc by (simpl; apply lookup_empty).
  eexists. rewrite (bind_Returns _ _ _ _ _ Hs),
    (bind_Returns _ _ _ _ _ Hfc), (operator_index_load wc f k Hfc1 Hkc Hexc).
  assert (fs.file_content (disk wc) (f k) = Serialize v "xml") as ->.
  { unfold fs.file_content. simpl. by rewrite Hfile. }
  rewrite Hrt. split; [done|]. simpl. done.
Qed.

(** X10.  [save] does not tell when a file cannot be written: for a
    non-null entry whose file cannot be opened, [save] returns as always,
    the path holds what it held, and the value stays in memory only. *)
Theorem save_write_failure_silent w f k v :
  m_filename_func (this w) = Some f →
  m_cache (this w) !! k = Some (Some v) →
  fs.can_open_for_writing (disk w) (f k) = false →
  ∃ w1, save w = Returns tt w1 ∧
        disk w1 !! f k = disk w !! f k ∧
        m_cache (this w1) !! k = Some (Some v).
Proof.
  intros Hf Hk Ho. eexists. split; [apply (save_Returns w f Hf)|].
  split; [|done]. simpl. by rewrite foldl_after_save_entry_lookup, Ho.
Qed.

(** ** What [create] leaves alone *)

(** X11.  A [create] that returns [true] takes nothing away: every path
    that was on the disk holds what it held, and the entries of all other
    keys are as before. *)
Theorem create_frame w k v w1 :
  create k v w = Returns true w1 →
  (∀ t n, disk w !! t = Some n → disk w1 !! t = Some n) ∧
  (∀ k', k' ≠ k → m_cache (this w1) !! k' = m_cache (this w) !! k') ∧
  m_filename_func (this w1) = m_filename_func (this w).
Proof.
  intros Hc.
  destruct (create_true_inv _ _ _ _ Hc) as (f & d' & Hf & Hex & Hd & ->).
  destruct (can_open_after_create_directories _ _ _ _ Hex Hd) as (Hp & _ & _).
  split_and!; [| |done].
  - intros t n Ht. simpl. rewrite lookup_insert_ne.
    + by apply (create_directories_preserves _ _ _ _ _ _ Hd).
    + intros <-. rewrite (exists_false_lookup _ _ Hp Hex) in Ht. done.
  - intros k' Hne. simpl. unfold refreshed_early.
    destruct (m_cache (this w) !! k); [by rewrite lookup_insert_ne|done].
Qed.

(** ** When [create] throws *)

(** X18.  [create] throws when a regular file is in the way of the
    directory it has to make: the error of [create_directories] comes out
    as an exception, not as [false]. *)
Theorem create_throws_when_file_in_the_way w f k v q s :
  m_filename_func (this w) = Some f →
  fs.exists_ (disk w) (f k) = false →
  q ≠ [] → q `prefix_of` fs.parent_path (f k) →
  disk w !! q = Some (fs.File s) →
  ∃ e, create k v w = Throws (filesystem_error e).
Proof.
  intros Hf Hex Hq Hpre Hfile.
  destruct (create_directories_blocked _ _ _ _ Hq Hpre Hfile) as [e He].
  exists e. unfold create.
  rewrite (bind_Returns _ _ _ _ _ (call_m_filename_func_set _ _ _ Hf)).
  unfold mbind, M_bind, fs_exists, fs_create_directories. by rewrite Hex, He.
Qed.

End Cache_usage.

(** * [save] with nothing to write *)

Section Cache_save_edge.
Context {Key : Type} `{Countable Key} `{!Less Key}.
Context {Value : Type} {policy : SerializationPolicy Value}.
Context {filebuf : Filebuf}.

Lemma for_each_skip (l : list (Key * option Value)) (w : World Key Value) :
  (∀ e, e ∈ l → e.2 = None) →
  for_each l (λ e : Key * option Value,
                match e.2 with
                | Some v => writeToDisk e.1 v
                | None => mret tt
                end) w
  = Returns tt w.
Proof.
  induction l as [|e l IH]; intros Hnull; [done|]. cbn [for_each].
  rewrite (Hnull e) by by left.
  unfold mbind, M_bind, mret at 1, M_ret at 1. apply IH.
  intros e' He'. apply Hnull. by right.
Qed.

Lemma save_all_null (w : World Key Value) :
  (∀ k v, m_cache (this w) !! k ≠ Some (Some v)) →
  save w = Returns tt w.
Proof.
  intros Hnull. unfold save, mbind, M_bind, m_cache_entries.
  apply for_each_skip. intros [k [v|]] Hin; [|done].
  rewrite merge_sort_Permutation, elem_of_map_to_list in Hin.
  by destruct (Hnull k v).
Qed.

(** X9.  A table without a non-null entry gives [save] nothing to do: it
    returns with table and disk as they were, and it does so before
    [setFilenameFunction] as well, for it never asks for a file name. *)
Theorem save_nothing_to_write (w : World Key Value) :
  (∀ k v, m_cache (this w) !! k ≠ Some (Some v)) →
  save w = Returns tt w.
Proof.
  intros Hnull. unfold save, mbind, M_bind, m_cache_entries.
  apply for_each_skip. intros [k p] Hin.
  rewrite merge_sort_Permutation, elem_of_map_to_list in Hin.
  destruct p as [v|]; [by destruct (Hnull k v)|done].
Qed.

End Cache_save_edge.

(** * The default serialization policy on [std::string] *)

Section OstreamOverload_facts.

Lemma skipws_no_space s : no_space s = true → skipws s = s.
Proof.
  destruct s as [|c s]; [done|]. simpl. intros [Hc _]%andb_true_iff.
  by destruct (isspace c).
Qed.

Lemma word_no_space s : no_space s = true → word s = s.
Proof.
  induction s as [|c s IH]; [done|]. simpl. intros [Hc Hs]%andb_true_iff.
  destruct (isspace c); [done|]. by rewrite IH.
Qed.

Lemma word_until_space a c rest :
  no_space a = true → isspace c = true → word (a +:+ String c rest) = a.
Proof.
  intros Ha Hc. induction a as [|c' a IH]; simpl.
  - by rewrite Hc.
  - simpl in Ha. apply andb_true_iff in Ha as [Hc' Ha].
    destruct (isspace c'); [done|]. by rewrite IH.
Qed.

Lemma no_space_append a s : no_space a = true → a ≠ "" → skipws (a +:+ s) = a +:+ s.
Proof.
  destruct a as [|c a]; [done|]. simpl. intros [Hc _]%andb_true_iff _.
  by destruct (isspace c).
Qed.

(** X14.  [OstreamOverload] reads a [std::string] back as it wrote it when
    the string is a word: not empty and without white space.  The format
    tag plays no part. *)
Theorem OstreamOverload_word_round_trip (v v0 : string) (format format' : string) :
  v ≠ "" → no_space v = true →
  Deserialize (Serialize v format) v0 format' = v.
Proof.
  intros Hne Hv. simpl. rewrite (skipws_no_space _ Hv), (word_no_space _ Hv).
  by destruct v.
Qed.

(** X15.  [OstreamOverload] cuts a [std::string] at its first white space:
    a word followed by white space and anything else is read back as the
    word alone. *)
Theorem OstreamOverload_cuts_at_space (a rest v0 : string) (c : Ascii.ascii)
    (format format' : string) :
  a ≠ "" → no_space a = true → isspace c = true →
  Deserialize (Serialize (a +:+ String c rest) format) v0 format' = a.
Proof.
  intros Hne Ha Hc. simpl.
  rewrite (no_space_append a (String c rest) Ha Hne), (word_until_space _ _ _ Ha Hc).
  by destruct a.
Qed.

End OstreamOverload_facts.

(** * Properties of [PolymorphicCache] *)

Section PolymorphicCache_facts.
Context {Key : Type} `{Countable Key} `{!Less Key}.
Context {Value : Type}.
Context {filebuf : Filebuf}.
Context (cerealise : Value → string → string).
Context (decerealise : string → string → option Value).
Implicit Types (w : World Key Value) (k : Key) (v : Value).
Implicit Types (f : Key → fs.path).

#[local] Instance cereal_policy : SerializationPolicy Value :=
  PolymorphicCache.cereal cerealise decerealise.

(** The loop of [PolymorphicCache::save] is the loop of [Cache::save]. *)
Lemma PolymorphicCache_save_eq w : PolymorphicCache.save cerealise w = save w.
Proof. reflexivity. Qed.

Lemma PolymorphicCache_loadFromDisk_inv k w p w' :
  PolymorphicCache.loadFromDisk decerealise k w = Returns p w' → w' = w.
Proof.
  unfold PolymorphicCache.loadFromDisk, call_m_filename_func, fs_exists,
    ifstream_read, mbind, M_bind, mret, M_ret.
  destruct (m_filename_func (this w)) as [f|]; [|done].
  destruct (fs.exists_ (disk w) (f k)); by intros [= _ <-].
Qed.

Lemma PolymorphicCache_loadFromDisk_found w f k :
  m_filename_func (this w) = Some f →
  fs.exists_ (disk w) (f k) = true →
  PolymorphicCache.loadFromDisk decerealise k w
  = Returns (decerealise (fs.file_content (disk w) (f k)) "xml") w.
Proof.
  intros Hf Hex.
  unfold PolymorphicCache.loadFromDisk, call_m_filename_func, fs_exists,
    mbind, M_bind.
  by rewrite Hf, Hex.
Qed.

Lemma PolymorphicCache_operator_index_hit w k p :
  m_cache (this w) !! k = Some p →
  PolymorphicCache.operator_index decerealise k w = Returns p w.
Proof.
  intros Hk. unfold PolymorphicCache.operator_index, mbind, M_bind, m_cache_find.
  by rewrite Hk.
Qed.

Lemma PolymorphicCache_operator_index_load w f k :
  m_filename_func (this w) = Some f →
  m_cache (this w) !! k = None →
  fs.exists_ (disk w) (f k) = true →
  let p := decerealise (fs.file_content (disk w) (f k)) "xml" in
  PolymorphicCache.operator_index decerealise k w
  = Returns p (with_m_cache (insert k p) w).
Proof.
  intros Hf Hk Hex.
  unfold PolymorphicCache.operator_index, mbind at 1, M_bind at 1, m_cache_find.
  rewrite Hk.
  by rewrite (bind_Returns _ _ _ _ _ (PolymorphicCache_loadFromDisk_found _ _ _ Hf Hex)).
Qed.

Lemma PolymorphicCache_refresh_inv k' w w' :
  PolymorphicCache.refresh decerealise k' w = Returns tt w' →
  disk w' = disk w ∧
  m_filename_func (this w') = m_filename_func (this w) ∧
  ∀ k, k ≠ k' → m_cache (this w') !! k = m_cache (this w) !! k.
Proof.
  unfold PolymorphicCache.refresh, mbind at 1, M_bind at 1, m_cache_find.
  destruct (m_cache (this w) !! k') as [p0|].
  - intros Hr. destruct (bind_Returns_inv _ _ _ _ _ Hr) as (p & w0 & Hl & Ha).
    apply PolymorphicCache_loadFromDisk_inv in Hl as ->.
    unfold m_cache_assign in Ha. injection Ha as <-.
    split_and!; [done|done|]. intros k Hne. simpl. by rewrite lookup_insert_ne.
  - by intros [= <-].
Qed.

(** X16.  [PolymorphicCache::clear] saves and then empties the table.
    With the filename function set it returns with an empty table; the
    file of a non-null entry that can be opened, and that no other
    non-null entry shares, holds what [cerealise] writes for the entry,
    and a lookup of the key afterwards reads it back; paths that are not
    the file of a non-null entry are as before. *)
Theorem PolymorphicCache_clear_saves w f :
  m_filename_func (this w) = Some f →
  ∃ w1,
    PolymorphicCache.clear cerealise w = Returns tt w1 ∧
    m_cache (this w1) = ∅ ∧
    m_filename_func (this w1) = Some f ∧
    (∀ k v, m_cache (this w) !! k = Some (Some v) →
            fs.can_open_for_writing (disk w) (f k) = true →
            (∀ k' v', m_cache (this w) !! k' = Some (Some v') → f k' = f k → k' = k) →
            disk w1 !! f k = Some (fs.File (cerealise v "xml")) ∧
            ∃ w2, PolymorphicCache.operator_index decerealise k w1
                  = Returns (decerealise (cerealise v "xml") "xml") w2) ∧
    (∀ q, (∀ k v, m_cache (this w) !! k = Some (Some v) → f k ≠ q) →
          disk w1 !! q = disk w !! q).
Proof.
  intros Hf.
  destruct (decide (map_Exists (λ _ (p : option Value), is_Some p) (m_cache (this w))))
    as [(k0 & p0 & _ & [v0 _])|Hnone].
  - pose (populate v0 : Inhabited Value) as Hinh.
    pose proof (save_Returns w f Hf) as Hs.
    set (l := merge_sort value_comp (map_to_list (m_cache (this w)))) in *.
    set (ws := with_disk _ w) in *.
    exists (with_m_cache (λ _, ∅) ws). split_and!; [|done|done| |].
    + unfold PolymorphicCache.clear.
      by rewrite (bind_Returns _ _ _ _ _ (eq_trans (PolymorphicCache_save_eq w) Hs)).
    + intros k v Hk Ho Hinj.
      assert (disk ws !! f k = Some (fs.File (cerealise v "xml"))) as Hfile.
      { simpl. rewrite foldl_after_save_entry_lookup, Ho.
        assert ((k, Some v) ∈ l) as Hin by by apply elem_of_entries.
        destruct (last_write_is_Some f l k v Hin) as [s Hl]. fold l. rewrite Hl.
        destruct (last_write_Some_inv _ _ _ _ Hl) as (k' & v' & Hin' & Hq & ->).
        apply elem_of_entries in Hin'. pose proof (Hinj k' v' Hin' Hq) as ->.
        rewrite Hk in Hin'. by injection Hin' as ->. }
      split; [exact Hfile|]. eexists.
      assert (fs.file_content (disk (with_m_cache (λ _, ∅) ws)) (f k)
              = cerealise v "xml") as Hfc.
      { unfold fs.file_content.
        change (disk (with_m_cache (λ _, ∅) ws)) with (disk ws). by rewrite Hfile. }
      rewrite (PolymorphicCache_operator_index_load (with_m_cache (λ _, ∅) ws) f k).
      * cbv zeta. by rewrite Hfc.
      * done.
      * simpl. apply lookup_empty.
      * apply exists_true; [by apply (can_open_for_writing_nonempty (disk w))|].
        change (disk (with_m_cache (λ _, ∅) ws)) with (disk ws).
        rewrite Hfile. eauto.
    + intros q Hq. simpl. rewrite foldl_after_save_entry_lookup.
      destruct (fs.can_open_for_writing (disk w) q); [|done].
      fold l. destruct (last_write f l q) as [s|] eqn:Hl; [|done].
      destruct (last_write_Some_inv _ _ _ _ Hl) as (k' & v' & Hin' & Hq' & ->).
      apply elem_of_entries in Hin'. by destruct (Hq k' v' Hin').
  - assert (∀ k v, m_cache (this w) !! k ≠ Some (Some v)) as Hnull.
    { intros k v Hk. apply Hnone. exists k, (Some v). split; [done|eauto]. }
    exists (with_m_cache (λ _, ∅) w). split_and!; [|done|done| |done].
    + unfold PolymorphicCache.clear.
      by rewrite (bind_Returns _ _ _ _ _
                    (eq_trans (PolymorphicCache_save_eq w) (save_all_null w Hnull))).
    + intros k v Hk. by destruct (Hnull k v).
Qed.

End PolymorphicCache_facts.

Section PolymorphicCache_create_facts.
Context {Key : Type} `{Countable Key} `{!Less Key}.
Context {Value : Type}.
Context {filebuf : Filebuf}.
Context (cerealise : Value → string → string).
Context (decerealise : string → string → option Value).
Context (getUID : Value → Key).
Implicit Types (w : World Key Value) (k : Key) (v : Value).
Implicit Types (f : Key → fs.path).

(** X17.  [PolymorphicCache::create] refreshes the entry of the value's
    own key, [v->getUID()], not of the key it was called with.  When the
    two differ and the key holds a null entry, a [create] that returns
    [true] leaves that entry: the key's file is on the disk, and a lookup
    of the key still returns null. *)
Theorem PolymorphicCache_create_other_uid w f k v w1 :
  m_filename_func (this w) = Some f →
  m_cache (this w) !! k = Some None →
  getUID v ≠ k →
  PolymorphicCache.create cerealise decerealise getUID k v w = Returns true w1 →
  disk w1 !! f k = Some (fs.File (cerealise v "xml")) ∧
  fs.exists_ (disk w1) (f k) = true ∧
  PolymorphicCache.operator_index decerealise k w1 = Returns None w1.
Proof.
  intros Hf Hk Huid Hc. pose (populate v : Inhabited Value) as Hinh.
  pose (PolymorphicCache.cereal cerealise decerealise : SerializationPolicy Value)
    as Hpol.
  unfold PolymorphicCache.create in Hc.
  rewrite (bind_Returns _ _ _ _ _ (call_m_filename_func_set _ _ _ Hf)) in Hc.
  unfold mbind at 1, M_bind at 1, fs_exists in Hc.
  destruct (fs.exists_ (disk w) (f k)) eqn:Hex; [done|].
  unfold mbind at 1, M_bind at 1, fs_create_directories in Hc.
  destruct (fs.create_directories (disk w) (fs.parent_path (f k)))
    as [e|[[] d']] eqn:Hd; [done| |done]. cbn [negb] in Hc.
  destruct (can_open_after_create_directories _ _ _ _ Hex Hd) as (Hp & _ & Hopen).
  rewrite (bind_Returns _ _ _ _ _ (ofstream_open_Returns (with_disk d' w) _ Hopen)) in Hc.
  unfold mbind at 1, M_bind at 1, ofstream_put in Hc. simpl os_is_open in Hc.
  cbv iota in Hc.
  destruct (bind_Returns_inv _ _ _ _ _ Hc) as ([] & wr & Hr & Hclose).
  destruct (PolymorphicCache_refresh_inv cerealise decerealise _ _ _ Hr)
    as (Hdr & Hfr & Hmr).
  unfold mbind, M_bind, ofstream_close, mret, M_ret in Hclose. simpl in Hclose.
  injection Hclose as <-.
  assert (disk (with_disk (<[f k:=fs.File (cerealise v "xml")]> (disk wr)) wr) !! f k
          = Some (fs.File (cerealise v "xml"))) as Hfile.
  { simpl. apply lookup_insert_eq. }
  split_and!; [exact Hfile| |].
  - apply exists_true; [done|]. rewrite Hfile. eauto.
  - apply (PolymorphicCache_operator_index_hit cerealise decerealise). simpl.
    rewrite Hmr by done. simpl. exact Hk.
Qed.

End PolymorphicCache_create_facts.

(** * The further properties at work on the demonstration cache *)

Section Usage_facts.
Import Demo Usage.
Local Open Scope Z_scope.

Ltac run := vm_compute; reflexivity.

Lemma create_leaves_table_witness :
  m_cache (this w0) !! 1 = None ∧
  create 1 "one" w0 = Returns true w_created ∧
  m_cache (this w_created) = m_cache (this w0) ∧
  ∃ w2, operator_index 1 w_created = Returns (Some "one") w2.
Proof.
  assert (create 1 "one" w0 = Returns true w_created) as Hc by run.
  destruct (create_leaves_table w0 1 "one" w_created eq_refl Hc) as (Hm & w2 & Hl & _).
  split_and!; [reflexivity|exact Hc|exact Hm|]. exists w2. exact Hl.
Defined.

(** Key 1 was looked up when it had no file; its file was written behind
    the back of the cache; the lookup still returns null. *)
Lemma operator_index_memoizes_witness :
  operator_index 1 w0 = Returns None w_missed ∧
  fs.exists_ (disk w_created) (filename 1) = true ∧
  operator_index 1 (with_disk (disk w_created) w_missed)
  = Returns None (with_disk (disk w_created) w_missed).
Proof.
  assert (operator_index 1 w0 = Returns None w_missed) as Hl by run.
  split_and!; [exact Hl|run|].
  exact (operator_index_memoizes w0 1 None w_missed Hl (disk w_created)).
Defined.

Lemma unset_filename_function_throws_witness :
  m_filename_func (this w_unset) = None ∧
  create 1 "one" w_unset = Throws bad_function_call ∧
  operator_index 1 w_unset = Throws bad_function_call.
Proof.
  destruct (unset_filename_function_throws w_unset 1 "one" eq_refl)
    as (Hc & Hl).
  split_and!; [reflexivity|exact Hc|exact (Hl eq_refl)].
Defined.

(** The entry of key 1 holds a value changed through the pointer. *)
Lemma refresh_discards_changes_witness :
  m_filename_func (this w_changed) = Some filename ∧
  fs.exists_ (disk w_changed) (filename 1) = true ∧
  m_cache (this w_changed) !! 1 = Some (Some "one!") ∧
  ∃ w2, (refresh 1 ;; operator_index 1) w_changed = Returns (Some "one") w2.
Proof.
  assert (fs.exists_ (disk w_changed) (filename 1) = true) as Hex by run.
  assert (m_cache (this w_changed) !! 1 = Some (Some "one!")) as Hk by run.
  destruct (refresh_discards_changes w_changed filename 1 _ eq_refl Hex Hk)
    as (w2 & Hr & _).
  split_and!; [reflexivity|exact Hex|exact Hk|]. exists w2. exact Hr.
Defined.

Lemma forceClear_loses_changes_witness :
  m_filename_func (this w_changed) = Some filename ∧
  fs.exists_ (disk w_changed) (filename 1) = true ∧
  ∃ w2, (forceClear ;; operator_index 1) w_changed = Returns (Some "one") w2 ∧
        m_cache (this w2) = {[ 1 := Some "one" ]}.
Proof.
  assert (fs.exists_ (disk w_changed) (filename 1) = true) as Hex by run.
  destruct (forceClear_loses_changes w_changed filename 1 eq_refl Hex)
    as (w2 & Hr & _ & Hm).
  split_and!; [reflexivity|exact Hex|]. exists w2. split; [exact Hr|exact Hm].
Defined.

Lemma refresh_twice_witness :
  m_filename_func (this w_changed) = Some filename ∧
  ∃ w1, refresh 1 w_changed = Returns tt w1 ∧ refresh 1 w1 = Returns tt w1.
Proof.
  destruct (refresh_twice w_changed filename 1 eq_refl) as (w1 & Hr & _ & Hrr).
  split; [reflexivity|]. exists w1. split; [exact Hr|exact Hrr].
Defined.

Lemma saved_entry_reloads_witness :
  m_filename_func (this w_changed) = Some filename ∧
  m_cache (this w_changed) !! 1 = Some (Some "one!") ∧
  fs.can_open_for_writing (disk w_changed) (filename 1) = true ∧
  Deserialize (Serialize "one!" "xml") inhabitant "xml" = "one!" ∧
  ∃ w1, (save ;; forceClear ;; operator_index 1) w_changed
        = Returns (Some "one!") w1.
Proof.
  assert (m_cache (this w_changed) !! 1 = Some (Some "one!")) as Hk by run.
  assert (fs.can_open_for_writing (disk w_changed) (filename 1) = true) as Ho by run.
  destruct (saved_entry_reloads w_changed filename 1 "one!" eq_refl Hk Ho)
    as (w1 & Hall & _).
  { intros k' v' _ [= Hk']. exact (inj pretty _ _ Hk'). }
  { reflexivity. }
  split_and!; [reflexivity|exact Hk|exact Ho|reflexivity|]. exists w1. exact Hall.
Defined.

Lemma save_nothing_to_write_witness :
  m_cache (this w_missed) !! 1 = Some None ∧
  save w_missed = Returns tt w_missed ∧
  save w_unset = Returns tt w_unset.
Proof.
  split_and!; [run| |].
  - apply (save_nothing_to_write w_missed). intros k v.
    replace (m_cache (this w_missed)) with ({[1 := None]} : gmap Z (option string))
      by run.
    destruct (decide (k = 1)) as [->|Hne].
    + by rewrite lookup_singleton_eq.
    + by rewrite lookup_singleton_ne.
  - apply (save_nothing_to_write w_unset). intros k v. simpl. by rewrite lookup_empty.
Defined.

Lemma save_write_failure_silent_witness :
  m_filename_func (this w_orphan) = Some filename ∧
  m_cache (this w_orphan) !! 1 = Some (Some "one") ∧
  fs.can_open_for_writing (disk w_orphan) (filename 1) = false ∧
  ∃ w1, save w_orphan = Returns tt w1 ∧ disk w1 !! filename 1 = None.
Proof.
  assert (m_cache (this w_orphan) !! 1 = Some (Some "one")) as Hk by run.
  assert (fs.can_open_for_writing (disk w_orphan) (filename 1) = false) as Ho by run.
  destruct (save_write_failure_silent w_orphan filename 1 "one" eq_refl Hk Ho)
    as (w1 & Hs & Hd & _).
  split_and!; [reflexivity|exact Hk|exact Ho|]. exists w1. split; [exact Hs|].
  rewrite Hd. run.
Defined.

Lemma create_frame_witness :
  create 2 "two" w_created = Returns true w_two ∧
  disk w_two !! filename 1 = Some (fs.File "one") ∧
  disk w_two !! filename 2 = Some (fs.File "two").
Proof.
  assert (create 2 "two" w_created = Returns true w_two) as Hc by run.
  destruct (create_frame w_created 2 "two" w_two Hc) as (Hd & _).
  split_and!; [exact Hc| |run]. apply Hd. run.
Defined.

Lemma OstreamOverload_word_round_trip_witness :
  ("one" : string) ≠ "" ∧ no_space "one" = true ∧
  Deserialize (Serialize "one" "xml") "" "xml" = "one".
Proof.
  split_and!; [done|reflexivity|].
  by apply (OstreamOverload_word_round_trip "one" "" "xml" "xml").
Defined.

Lemma OstreamOverload_cuts_at_space_witness :
  ("hello" : string) ≠ "" ∧ no_space "hello" = true ∧ isspace " " = true ∧
  Deserialize (Serialize "hello world" "xml") "" "xml" = "hello".
Proof.
  split_and!; [done|reflexivity|reflexivity|].
  by apply (OstreamOverload_cuts_at_space "hello" "world" "" " " "xml" "xml").
Defined.

Lemma create_throws_when_file_in_the_way_witness :
  m_filename_func (this w_blocked) = Some filename ∧
  fs.exists_ (disk w_blocked) (filename 1) = false ∧
  disk w_blocked !! ["data"] = Some (fs.File "junk") ∧
  create 1 "one" w_blocked = Throws (filesystem_error fs.not_a_directory).
Proof.
  assert (fs.exists_ (disk w_blocked) (filename 1) = false) as Hex by run.
  assert (disk w_blocked !! ["data"] = Some (fs.File "junk")) as Hfile by run.
  destruct (create_throws_when_file_in_the_way w_blocked filename 1 "one"
              ["data"] "junk" eq_refl Hex) as [e He]; [done| |exact Hfile|].
  { exists ["1"]. run. }
  split_and!; [reflexivity|exact Hex|exact Hfile|].
  assert (create 1 "one" w_blocked = Throws (filesystem_error fs.not_a_directory))
    as He' by run.
  rewrite He in He'. rewrite He. exact He'.
Defined.

Lemma PolymorphicCache_clear_saves_witness :
  m_filename_func (this pw_loaded) = Some filename ∧
  m_cache (this pw_loaded) !! 3 = Some (Some "abc") ∧
  ∃ w1 w2,
    PolymorphicCache.clear text_cerealise pw_loaded = Returns tt w1 ∧
    m_cache (this w1) = ∅ ∧
    disk w1 !! filename 3 = Some (fs.File "abc") ∧
    PolymorphicCache.operator_index text_decerealise 3 w1 = Returns (Some "abc") w2.
Proof.
  assert (m_filename_func (this pw_loaded) = Some filename) as Hf by run.
  assert (m_cache (this pw_loaded) !! 3 = Some (Some "abc")) as Hk by run.
  destruct (PolymorphicCache_clear_saves text_cerealise text_decerealise
              pw_loaded filename Hf) as (w1 & Hc & Hm & _ & Hsaved & _).
  destruct (Hsaved 3 "abc" Hk) as (Hfile & w2 & Hl).
  { run. }
  { intros k' v' _ [= Hk']. exact (inj pretty _ _ Hk'). }
  split_and!; [exact Hf|exact Hk|]. exists w1, w2.
  split_and!; [exact Hc|exact Hm|exact Hfile|exact Hl].
Defined.

Lemma PolymorphicCache_create_other_uid_witness :
  m_filename_func (this pw_missed) = Some filename ∧
  m_cache (this pw_missed) !! 1 = Some None ∧
  text_getUID "three" ≠ 1 ∧
  ∃ w1, PolymorphicCache.create text_cerealise text_decerealise text_getUID
          1 "three" pw_missed = Returns true w1 ∧
        disk w1 !! filename 1 = Some (fs.File "three") ∧
        PolymorphicCache.operator_index text_decerealise 1 w1 = Returns None w1.
Proof.
  assert (m_filename_func (this pw_missed) = Some filename) as Hf by run.
  assert (m_cache (this pw_missed) !! 1 = Some None) as Hk by run.
  assert (text_getUID "three" ≠ 1) as Huid by (vm_compute; discriminate).
  set (w1 := after (PolymorphicCache.create text_cerealise text_decerealise
                      text_getUID 1 "three") pw_missed).
  assert (PolymorphicCache.create text_cerealise text_decerealise text_getUID
            1 "three" pw_missed = Returns true w1) as Hc by run.
  destruct (PolymorphicCache_create_other_uid text_cerealise text_decerealise
              text_getUID pw_missed filename 1 "three" w1 Hf Hk Huid Hc)
    as (Hfile & _ & Hl).
  split_and!; [exact Hf|exact Hk|exact Huid|]. exists w1.
  split_and!; [exact Hc|exact Hfile|exact Hl].
Defined.

End Usage_facts.
